(** * ttlcache: a string cache whose entries expire when not touched

    Shallow embedding of [cache.go] and proofs of its contract.

    Conventions of the embedding.
    - Instants and durations are integers counting nanoseconds, as Go's
      [time.Time] (seen as an offset) and [time.Duration] are.
    - Every method of [Cache] runs between [mutex.Lock] and [mutex.Unlock]:
      a method is one atomic transition of the cache, and the mutex is
      not represented.  The instant a call reads from the clock is its
      argument [now]: one instant for a call, and one for a run of the
      sweep.
    - [items] maps a key to a pointer to an [Item].  [Set] always allocates
      a fresh [Item], so no two keys share one, and the update [Get] makes
      through the pointer is an update of the entry of that key.
    - A buffered channel is its FIFO content and its capacity; a send or a
      receive that would park the goroutine has no result ([None]).
    - [range] over a Go map yields the keys in an order the runtime
      chooses: the sweep takes that order as an argument.
    - The consumers of [FinishedItems] do not take the mutex.  A receive
      by a consumer is a transition of its own, [Receive], taking place
      between two transitions of the cache.  [cleanup] is a run of the
      sweep that no receive interrupts; [cleanup_racing] is a run during
      which consumers receive between the test of the length of the queue
      and the receive that follows it. *)

From Stdlib Require Import ZArith.
From stdpp Require Import gmap strings list fin_maps.

Local Open Scope Z_scope.

(** ** Items *)

Record Item := mkItem { data : string; expiresAt : Z }.

(** Modelled from the spec: the declaration of [Item] and its methods
    [touch] and [expired] are not in [cache.go].  The spec gives an item
    a payload [data] and an absolute timestamp [expiresAt]; a touch
    refreshes the expiry horizon to [now + ttl]. *)
Definition touch (now duration : Z) (item : Item) : Item :=
  {| data := data item; expiresAt := now + duration |}.

(** Modelled from the spec: an item is expired when [now > expiresAt]
    (the method [expired] of the missing declaration of [Item]). *)
Definition expired (now : Z) (item : Item) : bool :=
  expiresAt item <? now.

(** ** Buffered channels of strings *)

Record Chan := mkChan { buf : list string; cap : Z }.

(** The nil channel: its length is 0, and a send or a receive on it parks. *)
Definition nil_chan : Chan := {| buf := []; cap := 0 |}.

(** [make(chan string, n)] *)
Definition make_chan (n : Z) : Chan := {| buf := []; cap := n |}.

(** [len(ch)] *)
Definition len (ch : Chan) : Z := Z.of_nat (length (buf ch)).

(** [ch <- v]: parks when the buffer is full. *)
Definition chan_send (v : string) (ch : Chan) : option Chan :=
  if len ch <? cap ch then Some {| buf := buf ch ++ [v]; cap := cap ch |}
  else None.

(** [<-ch]: parks when the buffer is empty, else yields the oldest value. *)
Definition chan_recv (ch : Chan) : option (string * Chan) :=
  match buf ch with
  | [] => None
  | v :: rest => Some (v, {| buf := rest; cap := cap ch |})
  end.

(** ** The cache *)

Record Cache := mkCache {
  ttl : Z;
  items : gmap string Item;
  Length : Z;
  FinishedItems : Chan
}.

Definition with_items (m : gmap string Item) (cache : Cache) : Cache :=
  {| ttl := ttl cache; items := m; Length := Length cache;
     FinishedItems := FinishedItems cache |}.

Definition with_FinishedItems (ch : Chan) (cache : Cache) : Cache :=
  {| ttl := ttl cache; items := items cache; Length := Length cache;
     FinishedItems := ch |}.

(** [Set] (a reserved word here, hence the name): a fresh item holding
    the payload, [expiresAt] at its zero value, is touched, then stored
    under [key]. *)
Definition Set_ (now : Z) (key value : string) (cache : Cache) : Cache :=
  let item := touch now (ttl cache) {| data := value; expiresAt := 0 |} in
  with_items (<[key := item]> (items cache)) cache.

(** [Get]: the result [(data, found)] and the cache after the call. *)
Definition Get (now : Z) (key : string) (cache : Cache)
  : (string * bool) * Cache :=
  match items cache !! key with
  | None => ((""%string, false), cache)
  | Some item =>
      if expired now item then ((""%string, false), cache)
      else
        let item' := touch now (ttl cache) item in
        ((data item', true),
         with_items (<[key := item']> (items cache)) cache)
  end.

Definition Delete (key : string) (cache : Cache) : Cache :=
  with_items (delete key (items cache)) cache.

(** [Count]: the result and the cache after the call. *)
Definition Count (cache : Cache) : Z * Cache :=
  (Z.of_nat (size (items cache)), cache).

(** The publish step of the sweep:
    [if len(FinishedItems) == Length { <-FinishedItems }; FinishedItems <- v] *)
Definition publish (v : string) (cache : Cache) : option Cache :=
  ch ← (if bool_decide (len (FinishedItems cache) = Length cache)
        then snd <$> chan_recv (FinishedItems cache)
        else Some (FinishedItems cache));
  ch' ← chan_send v ch;
  Some (with_FinishedItems ch' cache).

(** The body of the loop of [cleanup], at the key [range] yields.  A key
    that is no longer in the map is not yielded by [range]. *)
Definition cleanup_body (now : Z) (cache : Cache) (key : string)
  : option Cache :=
  match items cache !! key with
  | None => Some cache
  | Some item =>
      if expired now item
      then publish (data item) (with_items (delete key (items cache)) cache)
      else Some cache
  end.

(** [cleanup]: one run of the sweep, visiting the keys in [order]. *)
Fixpoint cleanup (now : Z) (order : list string) (cache : Cache)
  : option Cache :=
  match order with
  | [] => Some cache
  | key :: rest => cache' ← cleanup_body now cache key; cleanup now rest cache'
  end.

(** The orders [range] may choose on a map: each key present, once. *)
Definition range_order (m : gmap string Item) (order : list string) : Prop :=
  order ≡ₚ (map_to_list m).*1.

(** [time.Second] in nanoseconds *)
Definition Second : Z := 1000000000.

(** The goroutine [startCleanupTimer] starts: it calls [cleanup] at each
    tick of [time.Tick(period)]. *)
Record Sweeper := mkSweeper { period : Z }.

Definition startCleanupTimer (cache : Cache) : Sweeper :=
  let duration := ttl cache in
  let duration := if duration <? Second then Second else duration in
  {| period := duration |}.

(** [NewCache]: the cache it returns and the sweeper it leaves running. *)
Definition NewCache (duration : Z) : Cache * Sweeper :=
  let cache := {| ttl := duration; items := ∅; Length := 10;
                  FinishedItems := nil_chan |} in
  let cache := with_FinishedItems (make_chan (Length cache)) cache in
  (cache, startCleanupTimer cache).

(** The instant of the [n]-th tick of a sweeper started at [start]. *)
Definition tick_time (start : Z) (sw : Sweeper) (n : nat) : Z :=
  start + Z.of_nat n * period sw.

(** ** Histories of calls *)

Inductive Call :=
| CallSet (key value : string)
| CallGet (key : string)
| CallDelete (key : string)
| CallCount
| Tick (order : list string)   (* one run of the sweep *)
| Receive.                     (* a consumer takes a value off FinishedItems *)

Definition exec (now : Z) (call : Call) (cache : Cache) : option Cache :=
  match call with
  | CallSet key value => Some (Set_ now key value cache)
  | CallGet key => Some (snd (Get now key cache))
  | CallDelete key => Some (Delete key cache)
  | CallCount => Some (snd (Count cache))
  | Tick order => cleanup now order cache
  | Receive =>
      r ← chan_recv (FinishedItems cache);
      Some (with_FinishedItems (snd r) cache)
  end.

(** A history is a list of calls, each with the instant it reads from the
    clock, oldest first. *)
Fixpoint run (h : list (Z * Call)) (cache : Cache) : option Cache :=
  match h with
  | [] => Some cache
  | (now, call) :: h' => cache' ← exec now call cache; run h' cache'
  end.

(** Whether a call touches [key]: a [Set] of it, or a [Get] that finds it. *)
Definition touches (key : string) (now : Z) (call : Call) (cache : Cache)
  : bool :=
  match call with
  | CallSet key' _ => bool_decide (key' = key)
  | CallGet key' => bool_decide (key' = key) && snd (fst (Get now key' cache))
  | _ => false
  end.

(** The instant of the last touch of [key] along a history run from
    [cache], [acc] being the last touch before the history. *)
Fixpoint last_touch (key : string) (h : list (Z * Call)) (cache : Cache)
    (acc : option Z) : option Z :=
  match h with
  | [] => acc
  | (now, call) :: h' =>
      match exec now call cache with
      | None => acc
      | Some cache' =>
          last_touch key h' cache'
            (if touches key now call cache then Some now else acc)
      end
  end.

(** The payload a call stores under [key], if it is a [Set] of it. *)
Definition set_payload (key : string) (call : Call) (acc : option string)
  : option string :=
  match call with
  | CallSet key' value => if bool_decide (key' = key) then Some value else acc
  | _ => acc
  end.

(** The payload of the last [Set] of [key] in a history, [acc] being the
    one before the history. *)
Fixpoint last_set (key : string) (h : list (Z * Call)) (acc : option string)
  : option string :=
  match h with
  | [] => acc
  | (_, call) :: h' => last_set key h' (set_payload key call acc)
  end.

(** The states a cache built by [NewCache] can reach. *)
Definition reachable (duration : Z) (cache : Cache) : Prop :=
  ∃ h, run h (fst (NewCache duration)) = Some cache.

(** ** Vocabulary of the statements *)

(** The last [n] values of a list. *)
Definition last_n {A} (n : nat) (l : list A) : list A :=
  drop (length l - n) l.

(** The queue is as [NewCache] makes it: a buffered channel whose
    capacity is [Length], holding no more than that. *)
Definition queue_ok (cache : Cache) : Prop :=
  cap (FinishedItems cache) = Length cache
  ∧ 0 < Length cache
  ∧ len (FinishedItems cache) ≤ Length cache.

(** The payloads of the items the sweep reclaims, in the order it
    reclaims them: those of the expired items, along the order of the
    visit. *)
Definition reclaimed (now : Z) (order : list string) (m : gmap string Item)
  : list string :=
  data <$> filter (λ item, expired now item = true) (omap (m !!.) order).

(** The entries a run of the sweep keeps. *)
Definition unexpired (now : Z) (m : gmap string Item) : gmap string Item :=
  filter (λ kv, expired now kv.2 = false) m.

(** The entries that are expired at [now]. *)
Definition stale (now : Z) (m : gmap string Item) : gmap string Item :=
  filter (λ kv, expired now kv.2 = true) m.

(** What is known of the entry of [key]: the instant of its last touch
    and the payload of its last [Set]. *)
Definition tracked (key : string) (cache : Cache)
    (touched : option Z) (payload : option string) : Prop :=
  ∀ item, items cache !! key = Some item →
    touched = Some (expiresAt item - ttl cache) ∧ payload = Some (data item).

(** Whether a call is made by the cache's clients ([Set], [Get], [Delete],
    [Count]), as opposed to the sweep and to the consumers of the queue. *)
Definition client_call (call : Call) : bool :=
  match call with
  | CallSet _ _ | CallGet _ | CallDelete _ | CallCount => true
  | Tick _ | Receive => false
  end.

(** ** Concrete caches and histories *)

(** A cache with [ttl = 5] (nanoseconds): ["a"] set at 0, ["b"] set at 4. *)
Definition cache_ab : Cache :=
  Set_ 4 "b" "2" (Set_ 0 "a" "1" (fst (NewCache 5))).

Definition order_ab : list string := (map_to_list (items cache_ab)).*1.

(** A cache with [ttl = 1] holding eleven entries, all set at 0. *)
Definition cache_eleven : Cache :=
  foldr (λ key cache, Set_ 0 key key cache) (fst (NewCache 1))
    ["a"; "b"; "c"; "d"; "e"; "f"; "g"; "h"; "i"; "j"; "k"]%string.

Definition order_eleven : list string := (map_to_list (items cache_eleven)).*1.

(** A history: a [Set] at 0, a [Get] that finds the key at 3, a run of the
    sweep at 4, a [Count] at 9. *)
Definition history_a : list (Z * Call) :=
  [(0, CallSet "a" "1"); (3, CallGet "a"); (4, Tick ["a"%string]);
   (9, CallCount)].

Definition cache_a : Cache :=
  {| ttl := 5; items := {[ "a"%string := {| data := "1"; expiresAt := 8 |} ]};
     Length := 10; FinishedItems := {| buf := []; cap := 10 |} |}.

(** ** Sequences of calls on one key *)

(** [Get] called on [key] at each instant of [ts] in turn: the results,
    oldest first, and the cache after the last call. *)
Fixpoint Gets (key : string) (ts : list Z) (cache : Cache)
  : list (string * bool) * Cache :=
  match ts with
  | [] => ([], cache)
  | t :: rest =>
      let r := Get t key cache in
      let rs := Gets key rest (snd r) in
      (fst r :: fst rs, snd rs)
  end.

(** Each instant of [ts] is no later than [deadline], the first one, or
    than [d] after the instant before it. *)
Fixpoint kept_alive (deadline d : Z) (ts : list Z) : Prop :=
  match ts with
  | [] => True
  | t :: rest => t ≤ deadline ∧ kept_alive (t + d) d rest
  end.

(** Whether a call is a [Set]. *)
Definition is_Set (call : Call) : bool :=
  match call with
  | CallSet _ _ => true
  | _ => false
  end.

(** The number of calls of [Set] in a history. *)
Definition count_Sets (h : list (Z * Call)) : nat :=
  length (filter (λ tc : Z * Call, is_Set tc.2 = true) h).

(** A history on an empty cache with [ttl = 5]: two keys set, one read
    again, the other deleted. *)
Definition history_ab : list (Z * Call) :=
  [(0, CallSet "a" "1"); (1, CallSet "b" "2"); (2, CallGet "a");
   (3, CallDelete "b"); (3, CallCount)].

Definition cache_after_ab : Cache :=
  {| ttl := 5; items := {[ "a"%string := {| data := "1"; expiresAt := 7 |} ]};
     Length := 10; FinishedItems := {| buf := []; cap := 10 |} |}.

(** The key a call of a client is about. *)
Definition call_key (call : Call) : option string :=
  match call with
  | CallSet key _ | CallGet key | CallDelete key => Some key
  | CallCount | Tick _ | Receive => None
  end.

(** [cache_ab] after a run of the sweep at 7, and after a second one
    at 10. *)
Definition cache_b_swept : Cache :=
  {| ttl := 5; items := {[ "b"%string := {| data := "2"; expiresAt := 9 |} ]};
     Length := 10; FinishedItems := {| buf := ["1"%string]; cap := 10 |} |}.

Definition cache_swept_twice : Cache :=
  {| ttl := 5; items := ∅; Length := 10;
     FinishedItems := {| buf := ["1"; "2"]%string; cap := 10 |} |}.

(** ** The sweep with consumers at work *)

(** How a step of the sweep ends: it returns, or its goroutine parks on
    the channel, the mutex held, with the cache as given. *)
Inductive Outcome :=
| Returns (cache : Cache)
| Parks (cache : Cache).

(** The channel after consumers have received [n] values off it: all of
    them when it holds fewer, a consumer that finds it empty waiting (the
    value a later send hands to it counts as queued until it is
    received). *)
Definition drain (n : nat) (ch : Chan) : Chan :=
  {| buf := drop n (buf ch); cap := cap ch |}.

(** The publish step when consumers receive [n] values after the test
    [len(FinishedItems) == Length] and before the statement that follows
    it: the receive [<-FinishedItems] when the test held, the send
    otherwise. *)
Definition publish_racing (n : nat) (v : string) (cache : Cache) : Outcome :=
  let full := bool_decide (len (FinishedItems cache) = Length cache) in
  let cache := with_FinishedItems (drain n (FinishedItems cache)) cache in
  match (if full then snd <$> chan_recv (FinishedItems cache)
         else Some (FinishedItems cache)) with
  | None => Parks cache
  | Some ch =>
      match chan_send v ch with
      | None => Parks (with_FinishedItems ch cache)
      | Some ch' => Returns (with_FinishedItems ch' cache)
      end
  end.

(** The body of the loop of [cleanup] at a visit: the key [range] yields,
    and the number of values consumers receive within its publish step. *)
Definition cleanup_body_racing (now : Z) (cache : Cache)
    (visit : string * nat) : Outcome :=
  match items cache !! visit.1 with
  | None => Returns cache
  | Some item =>
      if expired now item
      then publish_racing visit.2 (data item)
             (with_items (delete visit.1 (items cache)) cache)
      else Returns cache
  end.

(** A run of the sweep with consumers at work: it stops at the first
    visit whose publish step parks. *)
Fixpoint cleanup_racing (now : Z) (visits : list (string * nat))
    (cache : Cache) : Outcome :=
  match visits with
  | [] => Returns cache
  | visit :: rest =>
      match cleanup_body_racing now cache visit with
      | Returns cache' => cleanup_racing now rest cache'
      | Parks cache' => Parks cache'
      end
  end.

(** The visits of a run that no receive interrupts. *)
Definition quiet (order : list string) : list (string * nat) :=
  (λ key, (key, 0%nat)) <$> order.

(** Whether two caches hold the same payloads under the same keys, with
    the same [ttl], [Length] and queue: they differ at most in when their
    entries expire. *)
Definition same_payloads (c1 c2 : Cache) : Prop :=
  (∀ key, data <$> items c1 !! key = data <$> items c2 !! key)
  ∧ ttl c1 = ttl c2 ∧ Length c1 = Length c2
  ∧ FinishedItems c1 = FinishedItems c2.

(** A history on an empty cache with [ttl = 1]: eleven keys set at 0, a
    run of the sweep at 5 that fills the queue, and one more key set. *)
Definition history_full : list (Z * Call) :=
  ((λ key, (0, CallSet key key)) <$>
     ["a"; "b"; "c"; "d"; "e"; "f"; "g"; "h"; "i"; "j"; "k"]%string)
  ++ [(5, Tick ["a"; "b"; "c"; "d"; "e"; "f"; "g"; "h"; "i"; "j"; "k"]%string);
      (5, CallSet "z" "z")].

Definition cache_full : Cache :=
  {| ttl := 1; items := {[ "z"%string := {| data := "z"; expiresAt := 6 |} ]};
     Length := 10;
     FinishedItems :=
       {| buf := ["b"; "c"; "d"; "e"; "f"; "g"; "h"; "i"; "j"; "k"]%string;
          cap := 10 |} |}.

(** [cache_full] when the sweep has parked on its queue, emptied by the
    consumers. *)
Definition cache_parked : Cache :=
  {| ttl := 1; items := ∅; Length := 10;
     FinishedItems := {| buf := []; cap := 10 |} |}.

(** ** Elementary facts *)

Lemma cache_eta (cache : Cache) :
  {| ttl := ttl cache; items := items cache; Length := Length cache;
     FinishedItems := FinishedItems cache |} = cache.
Proof. by destruct cache. Qed.

Lemma with_items_id (cache : Cache) : with_items (items cache) cache = cache.
Proof. apply cache_eta. Qed.

Lemma expired_spec (now : Z) (item : Item) :
  expired now item = true ↔ now > expiresAt item.
Proof. unfold expired. rewrite Z.ltb_lt. lia. Qed.

Lemma expired_false (now : Z) (item : Item) :
  expired now item = false ↔ now ≤ expiresAt item.
Proof. unfold expired. rewrite Z.ltb_ge. lia. Qed.

Lemma Get_found (now : Z) (key : string) (cache : Cache) (item : Item) :
  items cache !! key = Some item → expired now item = false →
  Get now key cache =
    ((data item, true),
     with_items (<[key := mkItem (data item) (now + ttl cache)]> (items cache))
       cache).
Proof. intros Hk He. unfold Get. by rewrite Hk, He. Qed.

Lemma Get_absent (now : Z) (key : string) (cache : Cache) :
  items cache !! key = None → Get now key cache = ((""%string, false), cache).
Proof. intros Hk. unfold Get. by rewrite Hk. Qed.

Lemma Get_stale (now : Z) (key : string) (cache : Cache) (item : Item) :
  items cache !! key = Some item → expired now item = true →
  Get now key cache = ((""%string, false), cache).
Proof. intros Hk He. unfold Get. by rewrite Hk, He. Qed.

Lemma Get_cases (now : Z) (key : string) (cache : Cache) :
  (snd (fst (Get now key cache)) = false ∧ snd (Get now key cache) = cache)
  ∨ (∃ item, items cache !! key = Some item ∧ expired now item = false
       ∧ Get now key cache =
           ((data item, true),
            with_items
              (<[key := mkItem (data item) (now + ttl cache)]> (items cache))
              cache)).
Proof.
  destruct (items cache !! key) as [item|] eqn:Hk.
  - destruct (expired now item) eqn:He.
    + left. by rewrite (Get_stale _ _ _ _ Hk He).
    + right. exists item. by rewrite (Get_found _ _ _ _ Hk He).
  - left. by rewrite (Get_absent _ _ _ Hk).
Qed.

(** ** The last values of a list *)

Section last_n.
Context {A : Type}.
Implicit Types (l : list A) (n : nat).

Lemma last_n_all n l : (length l ≤ n)%nat → last_n n l = l.
Proof.
  intros H. unfold last_n. by replace (length l - n)%nat with 0%nat by lia.
Qed.

Lemma last_n_length n l : length (last_n n l) = (length l `min` n)%nat.
Proof. unfold last_n. rewrite length_drop. lia. Qed.

Lemma last_n_app n l1 l2 :
  (n ≤ length l2)%nat → last_n n (l1 ++ l2) = last_n n l2.
Proof.
  intros H. unfold last_n. rewrite length_app.
  replace (length l1 + length l2 - n)%nat
    with (length l1 + (length l2 - n))%nat by lia.
  by rewrite drop_app_add.
Qed.

(** Cutting to the last [n] values before appending changes nothing to
    the last [n] values afterwards. *)
Lemma last_n_app_l n l1 l2 :
  last_n n (last_n n l1 ++ l2) = last_n n (l1 ++ l2).
Proof.
  destruct (decide (length l1 ≤ n)%nat) as [Hle|Hgt].
  - by rewrite (last_n_all n l1).
  - assert (Hsplit : l1 ++ l2 =
                     take (length l1 - n) l1 ++ (last_n n l1 ++ l2)).
    { unfold last_n. by rewrite app_assoc, take_drop. }
    rewrite Hsplit. symmetry. apply last_n_app.
    rewrite length_app, last_n_length. lia.
Qed.
End last_n.

(** ** The publish step *)

(** The publish step when the queue is full: the oldest value is
    received and dropped, then the payload is sent. *)
Lemma publish_full (v : string) (cache : Cache) :
  queue_ok cache → len (FinishedItems cache) = Length cache →
  publish v cache =
    Some (with_FinishedItems
            {| buf := drop 1 (buf (FinishedItems cache)) ++ [v];
               cap := cap (FinishedItems cache) |} cache).
Proof.
  intros (Hcap & Hpos & Hle) Hfull. unfold publish.
  rewrite bool_decide_eq_true_2 by done.
  unfold chan_recv, len in *.
  destruct (buf (FinishedItems cache)) as [|old rest] eqn:Hbuf;
    [simpl in *; lia|].
  simpl. unfold chan_send, len. simpl.
  destruct (Z.ltb_spec (Z.of_nat (length rest)) (cap (FinishedItems cache)))
    as [_|Hge]; [done|].
  simpl in *. lia.
Qed.

(** The publish step when there is room: the payload is sent. *)
Lemma publish_room (v : string) (cache : Cache) :
  queue_ok cache → len (FinishedItems cache) ≠ Length cache →
  publish v cache =
    Some (with_FinishedItems
            {| buf := buf (FinishedItems cache) ++ [v];
               cap := cap (FinishedItems cache) |} cache).
Proof.
  intros (Hcap & Hpos & Hle) Hroom. unfold publish.
  rewrite bool_decide_eq_false_2 by done.
  simpl. unfold chan_send.
  destruct (Z.ltb_spec (len (FinishedItems cache)) (cap (FinishedItems cache)))
    as [_|Hge]; [done|lia].
Qed.

(** In both cases the queue afterwards holds the last [Length] values of
    the old content followed by the payload. *)
Lemma publish_last_n (v : string) (cache : Cache) :
  queue_ok cache →
  ∃ cache',
    publish v cache = Some cache'
    ∧ buf (FinishedItems cache') =
        last_n (Z.to_nat (Length cache)) (buf (FinishedItems cache) ++ [v])
    ∧ cap (FinishedItems cache') = cap (FinishedItems cache)
    ∧ ttl cache' = ttl cache ∧ items cache' = items cache
    ∧ Length cache' = Length cache
    ∧ queue_ok cache'.
Proof.
  intros Hok. pose proof Hok as (Hcap & Hpos & Hle).
  destruct (decide (len (FinishedItems cache) = Length cache)) as [Hfull|Hroom].
  - eexists. split; [by apply publish_full|]. simpl.
    unfold len in *.
    assert (Hb : buf (FinishedItems cache) ++ [v] =
                 take 1 (buf (FinishedItems cache))
                   ++ (drop 1 (buf (FinishedItems cache)) ++ [v])).
    { by rewrite app_assoc, take_drop. }
    split_and!; try done.
    + rewrite Hb. rewrite last_n_app.
      * rewrite last_n_all; [done|]. rewrite length_app, length_drop. simpl. lia.
      * rewrite length_app, length_drop. simpl. lia.
    + unfold queue_ok, len. simpl. rewrite length_app, length_drop. simpl.
      split_and!; lia.
  - eexists. split; [by apply publish_room|]. simpl.
    unfold len in *. split_and!; try done.
    + rewrite last_n_all; [done|]. rewrite length_app. simpl. lia.
    + unfold queue_ok, len. simpl. rewrite length_app. simpl.
      split_and!; lia.
Qed.

(** ** One run of the sweep *)

Lemma cleanup_body_frame (now : Z) (cache cache' : Cache) (key : string) :
  cleanup_body now cache key = Some cache' →
  ttl cache' = ttl cache ∧ Length cache' = Length cache
  ∧ cap (FinishedItems cache') = cap (FinishedItems cache).
Proof.
  unfold cleanup_body, publish, chan_send, chan_recv.
  intros H.
  repeat (case_match; simplify_option_eq); simpl; try done.
Qed.

Lemma reclaimed_nil (now : Z) (m : gmap string Item) : reclaimed now [] m = [].
Proof. done. Qed.

Lemma reclaimed_cons (now : Z) (key : string) (rest : list string)
    (m : gmap string Item) :
  reclaimed now (key :: rest) m =
    match m !! key with
    | Some item =>
        if expired now item then data item :: reclaimed now rest m
        else reclaimed now rest m
    | None => reclaimed now rest m
    end.
Proof.
  unfold reclaimed. simpl. destruct (m !! key) as [item|]; [|done].
  rewrite filter_cons. destruct (expired now item) eqn:He.
  - by rewrite decide_True.
  - by rewrite decide_False.
Qed.

Lemma reclaimed_delete (now : Z) (key : string) (rest : list string)
    (m : gmap string Item) :
  key ∉ rest → reclaimed now rest (delete key m) = reclaimed now rest m.
Proof.
  induction rest as [|k rest IH]; [done|].
  intros Hnotin. apply not_elem_of_cons in Hnotin as [Hne Hrest].
  rewrite !reclaimed_cons, lookup_delete_ne by done.
  by rewrite IH.
Qed.

Lemma unexpired_lookup (now : Z) (m : gmap string Item) (key : string) :
  unexpired now m !! key =
    match m !! key with
    | Some item => if expired now item then None else Some item
    | None => None
    end.
Proof.
  unfold unexpired. rewrite map_lookup_filter.
  destruct (m !! key) as [item|]; [|done]. simpl.
  destruct (expired now item) eqn:He.
  - by rewrite option_guard_False.
  - by rewrite option_guard_True.
Qed.

(** The three cases of a key [k] against the visit of [key :: rest],
    [key] not being in [rest]: it is [key]; it is visited later; it is not
    visited.  Each [decide] of the goal on these memberships is resolved. *)
Ltac visit_cases k key rest :=
  destruct (decide (k = key)) as [->|?];
  [ rewrite ?(decide_False (P := key ∈ rest)) by done;
    rewrite (decide_True (P := key ∈ key :: rest)) by left
  | destruct (decide (k ∈ rest));
    [ rewrite (decide_True (P := k ∈ key :: rest)) by (by right)
    | rewrite (decide_False (P := k ∈ key :: rest))
        by (by intros [?|?]%elem_of_cons) ] ].

(** What one run of the sweep does, whatever list of distinct keys it
    visits: it returns; the keys visited lose their expired entries; the
    queue receives the reclaimed payloads in order, dropping its oldest
    values beyond [Length]. *)
Lemma cleanup_visits (now : Z) (order : list string) (cache : Cache) :
  queue_ok cache → NoDup order →
  ∃ cache',
    cleanup now order cache = Some cache'
    ∧ (∀ key, items cache' !! key =
                if decide (key ∈ order) then unexpired now (items cache) !! key
                else items cache !! key)
    ∧ buf (FinishedItems cache') =
        last_n (Z.to_nat (Length cache))
          (buf (FinishedItems cache) ++ reclaimed now order (items cache))
    ∧ cap (FinishedItems cache') = cap (FinishedItems cache)
    ∧ ttl cache' = ttl cache ∧ Length cache' = Length cache
    ∧ queue_ok cache'.
Proof.
  intros Hok Hnd. revert cache Hok.
  induction Hnd as [|key rest Hnotin Hnd IH]; intros cache Hok.
  - exists cache. simpl. rewrite reclaimed_nil, app_nil_r.
    split_and!; try done.
    destruct Hok as (_ & _ & Hle). unfold len in Hle.
    rewrite last_n_all; [done|lia].
  - simpl. unfold cleanup_body. rewrite reclaimed_cons.
    destruct (items cache !! key) as [item|] eqn:Hk;
      [destruct (expired now item) eqn:He|].
    + destruct (publish_last_n (data item)
                  (with_items (delete key (items cache)) cache) Hok)
        as (c1 & -> & Hbuf1 & Hcap1 & Httl1 & Hitems1 & Hlen1 & Hok1).
      simpl in *.
      destruct (IH c1 Hok1) as (c' & -> & Hlk & Hbuf & Hcap & Httl & Hlen & Hok').
      exists c'. split_and!; try done; try congruence.
      * intros k. rewrite Hlk, Hitems1. visit_cases k key rest.
        -- by rewrite lookup_delete_eq, unexpired_lookup, Hk, He.
        -- by rewrite !unexpired_lookup, lookup_delete_ne.
        -- by rewrite lookup_delete_ne.
      * rewrite Hbuf, Hbuf1, Hlen1, Hitems1.
        rewrite reclaimed_delete by done.
        rewrite last_n_app_l. by rewrite <- app_assoc.
    + simpl.
      destruct (IH cache Hok) as (c' & -> & Hlk & Hbuf & Hcap & Httl & Hlen & Hok').
      exists c'. split_and!; try done.
      intros k. rewrite Hlk. visit_cases k key rest; try done.
      by rewrite unexpired_lookup, Hk, He.
    + simpl.
      destruct (IH cache Hok) as (c' & -> & Hlk & Hbuf & Hcap & Httl & Hlen & Hok').
      exists c'. split_and!; try done.
      intros k. rewrite Hlk. visit_cases k key rest; try done.
      by rewrite unexpired_lookup, Hk.
Qed.

Lemma range_order_NoDup (m : gmap string Item) (order : list string) :
  range_order m order → NoDup order.
Proof.
  unfold range_order. intros ->. apply NoDup_fst_map_to_list.
Qed.

Lemma range_order_elem (m : gmap string Item) (order : list string)
    (key : string) :
  range_order m order → key ∈ order ↔ is_Some (m !! key).
Proof.
  unfold range_order. intros ->. rewrite list_elem_of_fmap. split.
  - intros ([k item] & -> & Hin). apply elem_of_map_to_list in Hin. eauto.
  - intros [item Hk]. exists (key, item). split; [done|].
    by apply elem_of_map_to_list.
Qed.

Lemma range_order_keys (m : gmap string Item) :
  range_order m (map_to_list m).*1.
Proof. by unfold range_order. Qed.

Lemma filter_lookups (now : Z) (m : gmap string Item)
    (l : list (string * Item)) :
  (∀ key item, (key, item) ∈ l → m !! key = Some item) →
  filter (λ item, expired now item = true) (omap (m !!.) l.*1)
  = (filter (λ kv : string * Item, expired now kv.2 = true) l).*2.
Proof.
  induction l as [|[k item] l IH]; intros Hl; [done|].
  rewrite fmap_cons. cbn [omap list_omap fst].
  rewrite (Hl k item) by left. rewrite !filter_cons. cbn [snd].
  destruct (decide (expired now item = true)); rewrite ?fmap_cons;
    rewrite IH by (intros; apply Hl; by right); done.
Qed.

Lemma map_to_list_stale (now : Z) (m : gmap string Item) :
  filter (λ kv : string * Item, expired now kv.2 = true) (map_to_list m)
  ≡ₚ map_to_list (stale now m).
Proof.
  apply NoDup_Permutation.
  - apply NoDup_filter, NoDup_map_to_list.
  - apply NoDup_map_to_list.
  - intros [k item]. rewrite list_elem_of_filter, !elem_of_map_to_list.
    unfold stale. rewrite map_lookup_filter_Some. simpl. tauto.
Qed.

(** The payloads reclaimed by a run over the whole map are those of the
    expired entries, one for each. *)
Lemma reclaimed_stale (now : Z) (order : list string) (m : gmap string Item) :
  range_order m order →
  reclaimed now order m ≡ₚ data <$> (map_to_list (stale now m)).*2.
Proof.
  unfold range_order, reclaimed. intros ->.
  rewrite filter_lookups by (intros ? ?; apply elem_of_map_to_list).
  by rewrite map_to_list_stale.
Qed.

Lemma size_stale_unexpired (now : Z) (m : gmap string Item) :
  size m = (size (stale now m) + size (unexpired now m))%nat.
Proof.
  unfold stale, unexpired.
  rewrite <- (map_filter_union_complement
                (λ kv : string * Item, expired now kv.2 = true) m) at 1.
  rewrite map_size_disj_union by apply map_disjoint_filter_complement.
  f_equal. f_equal. apply map_filter_ext. intros k item _. simpl.
  by destruct (expired now item).
Qed.

(** ** Claims about the sweep *)


(** X16: a run of the sweep that no receive of a consumer interrupts
    keeps the queue bounded and drops its oldest values.  With a queue of
    capacity [N = Length] (10 for a cache built by [NewCache]), a publish
    step within which no consumer receives always returns: on a full
    queue it receives and drops the oldest value and then sends the
    payload, otherwise it just sends it, and in both cases the payload
    ends up last in the queue.  Hence such a run returns, the payload of
    every entry it removes is published, and the queue afterwards holds
    the last [N] values of its old content followed by the reclaimed
    payloads: when [N] or more entries were reclaimed, exactly the [N]
    most recently reclaimed payloads. *)
Theorem sweep_queue_drops_oldest
    (now : Z) (order : list string) (cache : Cache) :
  queue_ok cache → range_order (items cache) order →
  (∀ v c, queue_ok c →
     ∃ c', publish v c = Some c'
       ∧ (len (FinishedItems c) = Length c →
            buf (FinishedItems c') = drop 1 (buf (FinishedItems c)) ++ [v])
       ∧ (len (FinishedItems c) ≠ Length c →
            buf (FinishedItems c') = buf (FinishedItems c) ++ [v])
       ∧ last (buf (FinishedItems c')) = Some v
       ∧ items c' = items c ∧ queue_ok c')
  ∧ ∃ cache',
      cleanup now order cache = Some cache'
      ∧ (∀ key item, items cache !! key = Some item →
           items cache' !! key = None →
           data item ∈ reclaimed now order (items cache))
      ∧ length (reclaimed now order (items cache))
          = size (stale now (items cache))
      ∧ buf (FinishedItems cache') =
          last_n (Z.to_nat (Length cache))
            (buf (FinishedItems cache) ++ reclaimed now order (items cache))
      ∧ ((Z.to_nat (Length cache)
            ≤ length (reclaimed now order (items cache)))%nat →
           buf (FinishedItems cache') =
             last_n (Z.to_nat (Length cache))
               (reclaimed now order (items cache)))
      ∧ len (FinishedItems cache') ≤ Length cache
      ∧ queue_ok cache'.
Proof.
  intros Hok Hord. split.
  - intros v c Hc. pose proof Hc as (Hcap & Hpos & Hle).
    destruct (publish_last_n v c Hc)
      as (c' & Hp & Hbuf & _ & _ & Hitems & _ & Hc').
    exists c'. split_and!; try done.
    + intros Hfull. rewrite (publish_full v c Hc Hfull) in Hp.
      by injection Hp as <-.
    + intros Hroom. rewrite (publish_room v c Hc Hroom) in Hp.
      by injection Hp as <-.
    + destruct (decide (len (FinishedItems c) = Length c)) as [Hfull|Hroom].
      * rewrite (publish_full v c Hc Hfull) in Hp. injection Hp as <-.
        simpl. apply last_snoc.
      * rewrite (publish_room v c Hc Hroom) in Hp. injection Hp as <-.
        simpl. apply last_snoc.
  - destruct (cleanup_visits now order cache Hok (range_order_NoDup _ _ Hord))
      as (cache' & Hrun & Hlk & Hbuf & Hcap & Httl & Hlen & Hok').
    exists cache'. split_and!; try done.
    + intros key item Hk Hgone.
      assert (Hin : key ∈ order).
      { apply (range_order_elem _ _ _ Hord). eauto. }
      rewrite Hlk, decide_True, unexpired_lookup, Hk in Hgone by done.
      destruct (expired now item) eqn:He; [|done].
      unfold reclaimed. apply list_elem_of_fmap. exists item. split; [done|].
      apply list_elem_of_filter. split; [done|].
      apply list_elem_of_omap. by exists key.
    + rewrite (reclaimed_stale now order (items cache) Hord).
      by rewrite !length_fmap, length_map_to_list.
    + intros Hmany. rewrite Hbuf. by apply last_n_app.
    + destruct Hok' as (_ & _ & Hle). by rewrite <- Hlen.
Qed.

(** ** Histories keep the queue as it was made *)

Lemma cleanup_body_queue_ok (now : Z) (cache cache' : Cache) (key : string) :
  queue_ok cache → cleanup_body now cache key = Some cache' →
  queue_ok cache' ∧ Length cache' = Length cache ∧ ttl cache' = ttl cache.
Proof.
  intros Hok. unfold cleanup_body.
  destruct (items cache !! key) as [item|]; [|by intros [= <-]].
  destruct (expired now item); [|by intros [= <-]].
  destruct (publish_last_n (data item)
              (with_items (delete key (items cache)) cache) Hok)
    as (c1 & -> & _ & _ & Httl & _ & Hlen & Hok1).
  by intros [= <-].
Qed.

Lemma cleanup_queue_ok (now : Z) (order : list string) (cache cache' : Cache) :
  queue_ok cache → cleanup now order cache = Some cache' →
  queue_ok cache' ∧ Length cache' = Length cache ∧ ttl cache' = ttl cache.
Proof.
  revert cache. induction order as [|key rest IH]; intros cache Hok; simpl.
  - by intros [= <-].
  - destruct (cleanup_body now cache key) as [c1|] eqn:Hb; [|done]. simpl.
    destruct (cleanup_body_queue_ok _ _ _ _ Hok Hb) as (Hok1 & Hlen1 & Httl1).
    intros Hrest. destruct (IH c1 Hok1 Hrest) as (? & ? & ?).
    split_and!; congruence.
Qed.

Lemma exec_queue_ok (now : Z) (call : Call) (cache cache' : Cache) :
  queue_ok cache → exec now call cache = Some cache' →
  queue_ok cache' ∧ Length cache' = Length cache ∧ ttl cache' = ttl cache.
Proof.
  intros Hok. destruct call as [k v|k| k | |order|]; simpl.
  - by intros [= <-].
  - intros [= <-]. destruct (Get_cases now k cache) as [[_ ->]|(it & _ & _ & ->)];
      done.
  - by intros [= <-].
  - by intros [= <-].
  - by apply cleanup_queue_ok.
  - unfold chan_recv.
    destruct (buf (FinishedItems cache)) as [|v rest] eqn:Hbuf; [done|].
    simpl. intros [= <-]. split_and!; try done.
    destruct Hok as (Hcap & Hpos & Hle). unfold queue_ok, len in *. simpl.
    rewrite Hbuf in Hle. simpl in Hle. split_and!; lia.
Qed.

Lemma run_queue_ok (h : list (Z * Call)) (cache cache' : Cache) :
  queue_ok cache → run h cache = Some cache' →
  queue_ok cache' ∧ Length cache' = Length cache ∧ ttl cache' = ttl cache.
Proof.
  revert cache. induction h as [|[now call] h IH]; intros cache Hok; simpl.
  - by intros [= <-].
  - destruct (exec now call cache) as [c1|] eqn:He; [|done]. simpl.
    destruct (exec_queue_ok _ _ _ _ Hok He) as (Hok1 & Hlen1 & Httl1).
    intros Hrest. destruct (IH c1 Hok1 Hrest) as (? & ? & ?).
    split_and!; congruence.
Qed.

Lemma NewCache_queue_ok (duration : Z) : queue_ok (fst (NewCache duration)).
Proof. unfold queue_ok, len. simpl. lia. Qed.

(** Every state a cache built by [NewCache] reaches has its queue of
    capacity 10 and its [ttl] as given. *)
Lemma reachable_queue_ok (duration : Z) (cache : Cache) :
  reachable duration cache →
  queue_ok cache ∧ Length cache = 10 ∧ ttl cache = duration.
Proof.
  intros [h Hrun].
  by destruct (run_queue_ok h _ _ (NewCache_queue_ok duration) Hrun)
    as (? & ? & ?).
Qed.

(** ** What a call does to one entry *)

Lemma publish_items (v : string) (cache cache' : Cache) :
  publish v cache = Some cache' →
  items cache' = items cache ∧ ttl cache' = ttl cache.
Proof.
  unfold publish. intros H.
  destruct (if bool_decide (len (FinishedItems cache) = Length cache)
            then snd <$> chan_recv (FinishedItems cache)
            else Some (FinishedItems cache)) as [ch|]; [|done].
  simpl in H. destruct (chan_send v ch) as [ch'|]; [|done].
  simpl in H. by injection H as <-.
Qed.

Lemma cleanup_body_lookup (now : Z) (cache cache' : Cache) (key k : string)
    (item : Item) :
  cleanup_body now cache key = Some cache' →
  items cache' !! k = Some item → items cache !! k = Some item.
Proof.
  unfold cleanup_body.
  destruct (items cache !! key) as [it|]; [|by intros [= <-]].
  destruct (expired now it); [|by intros [= <-]].
  intros [Hitems _]%publish_items. rewrite Hitems. simpl.
  by intros [_ ?]%lookup_delete_Some.
Qed.

Lemma cleanup_lookup (now : Z) (order : list string) (cache cache' : Cache)
    (k : string) (item : Item) :
  cleanup now order cache = Some cache' →
  items cache' !! k = Some item → items cache !! k = Some item.
Proof.
  revert cache. induction order as [|key rest IH]; intros cache; simpl.
  - by intros [= <-].
  - destruct (cleanup_body now cache key) as [c1|] eqn:Hb; [|done]. simpl.
    intros Hrest Hk. eapply cleanup_body_lookup; [done|]. by eapply IH.
Qed.

Lemma cleanup_ttl (now : Z) (order : list string) (cache cache' : Cache) :
  cleanup now order cache = Some cache' → ttl cache' = ttl cache.
Proof.
  revert cache. induction order as [|key rest IH]; intros cache; simpl.
  - by intros [= <-].
  - destruct (cleanup_body now cache key) as [c1|] eqn:Hb; [|done]. simpl.
    intros Hrest. rewrite (IH _ Hrest).
    by destruct (cleanup_body_frame _ _ _ _ Hb) as (? & _).
Qed.

Lemma exec_ttl (now : Z) (call : Call) (cache cache' : Cache) :
  exec now call cache = Some cache' → ttl cache' = ttl cache.
Proof.
  destruct call as [k v|k| k | |order|]; simpl.
  - by intros [= <-].
  - intros [= <-].
    by destruct (Get_cases now k cache) as [[_ ->]|(it & _ & _ & ->)].
  - by intros [= <-].
  - by intros [= <-].
  - apply cleanup_ttl.
  - destruct (chan_recv (FinishedItems cache)); [|done]. by intros [= <-].
Qed.

(** After a call, an entry is either freshly touched by it, its expiry
    being [now + ttl], or exactly what it was before the call. *)
Lemma exec_expiry (now : Z) (call : Call) (cache cache' : Cache)
    (key : string) (item' : Item) :
  exec now call cache = Some cache' → items cache' !! key = Some item' →
  if touches key now call cache then expiresAt item' = now + ttl cache
  else items cache !! key = Some item'.
Proof.
  destruct call as [k v|k| k | |order|]; simpl.
  - intros [= <-]. simpl. case_bool_decide as Hk.
    + subst k. rewrite lookup_insert_eq. by intros [= <-].
    + by rewrite lookup_insert_ne.
  - intros [= <-]. case_bool_decide as Hk; simpl.
    + subst k.
      destruct (Get_cases now key cache) as [[-> ->]|(it & Hit & He & ->)];
        [done|].
      simpl. rewrite lookup_insert_eq. by intros [= <-].
    + destruct (Get_cases now k cache) as [[_ ->]|(it & Hit & He & ->)];
        [done|].
      simpl. by rewrite lookup_insert_ne.
  - intros [= <-]. simpl. by intros [_ ?]%lookup_delete_Some.
  - by intros [= <-].
  - apply cleanup_lookup.
  - destruct (chan_recv (FinishedItems cache)); [|done]. by intros [= <-].
Qed.

(** ** The invariant of histories *)

Lemma exec_tracked (now : Z) (call : Call) (cache cache' : Cache)
    (key : string) (touched : option Z) (payload : option string) :
  tracked key cache touched payload →
  exec now call cache = Some cache' →
  tracked key cache'
    (if touches key now call cache then Some now else touched)
    (set_payload key call payload).
Proof.
  intros Htr Hex item' Hk'. rewrite (exec_ttl _ _ _ _ Hex).
  pose proof (exec_expiry _ _ _ _ key item' Hex Hk') as Hstep.
  destruct call as [k v|k| k | |order|]; simpl in *.
  - injection Hex as <-. simpl in Hk'. case_bool_decide as Hk.
    + subst k. rewrite lookup_insert_eq in Hk'. injection Hk' as <-.
      simpl. split; [f_equal; lia|done].
    + by apply Htr.
  - injection Hex as <-. case_bool_decide as Hk; simpl in *.
    + subst k.
      destruct (Get_cases now key cache) as [[Hf Hc]|(it & Hit & He & Hg)].
      * rewrite Hf in Hstep |- *. by apply Htr.
      * rewrite Hg in Hstep, Hk' |- *. simpl in *.
        rewrite lookup_insert_eq in Hk'. injection Hk' as <-. simpl.
        split; [f_equal; lia|]. by apply Htr.
    + by apply Htr.
  - by apply Htr.
  - by apply Htr.
  - by apply Htr.
  - by apply Htr.
Qed.

Lemma run_tracked (key : string) (h : list (Z * Call)) (cache cache' : Cache)
    (touched : option Z) (payload : option string) :
  tracked key cache touched payload →
  run h cache = Some cache' →
  tracked key cache' (last_touch key h cache touched) (last_set key h payload).
Proof.
  revert cache touched payload.
  induction h as [|[now call] h IH]; intros cache touched payload Htr; simpl.
  - by intros [= <-].
  - destruct (exec now call cache) as [c1|] eqn:Hex; [|done]. simpl.
    apply IH. by apply exec_tracked.
Qed.

Lemma last_touch_acc (key : string) (h : list (Z * Call)) (cache : Cache)
    (acc : option Z) :
  last_touch key h cache acc =
    match last_touch key h cache None with
    | Some t => Some t
    | None => acc
    end.
Proof.
  revert cache acc. induction h as [|[now call] h IH]; intros cache acc; simpl.
  - done.
  - destruct (exec now call cache) as [c1|]; [|done].
    destruct (touches key now call cache); [|apply IH].
    rewrite (IH c1 (Some now)). by destruct (last_touch key h c1 None).
Qed.

(** Along a history run from any state, an entry that is there before
    and after expires [ttl] after the last touch of its key in the
    history, or when it was to expire before if there is none. *)
Lemma run_expiry (key : string) (h : list (Z * Call)) (cache cache' : Cache)
    (item item' : Item) :
  run h cache = Some cache' →
  items cache !! key = Some item → items cache' !! key = Some item' →
  match last_touch key h cache None with
  | Some t => expiresAt item' = t + ttl cache
  | None => expiresAt item' = expiresAt item
  end.
Proof.
  intros Hrun Hk Hk'.
  assert (Htr : tracked key cache (Some (expiresAt item - ttl cache))
                  (Some (data item))).
  { intros it Hit. rewrite Hk in Hit. by injection Hit as <-. }
  destruct (run_tracked key h _ _ _ _ Htr Hrun item' Hk') as [Ht _].
  assert (Httl : ttl cache' = ttl cache).
  { clear -Hrun. revert cache Hrun.
    induction h as [|[now call] h IH]; intros cache; simpl.
    - by intros [= <-].
    - destruct (exec now call cache) as [c1|] eqn:Hex; [|done]. simpl.
      intros Hrest. rewrite (IH _ Hrest). by apply exec_ttl in Hex. }
  rewrite last_touch_acc, Httl in Ht.
  destruct (last_touch key h cache None) as [t|]; injection Ht as Ht; lia.
Qed.

Lemma NewCache_tracked (key : string) (duration : Z) :
  tracked key (fst (NewCache duration)) None None.
Proof. intros item. simpl. by rewrite lookup_empty. Qed.

(** In a state reached by the history [h], an entry expires [ttl] after
    its last touch and holds the payload of its last [Set]. *)
Lemma history_entry (duration : Z) (h : list (Z * Call)) (cache : Cache)
    (key : string) (item : Item) :
  run h (fst (NewCache duration)) = Some cache →
  items cache !! key = Some item →
  last_touch key h (fst (NewCache duration)) None
    = Some (expiresAt item - duration)
  ∧ last_set key h None = Some (data item)
  ∧ ttl cache = duration.
Proof.
  intros Hrun Hk.
  destruct (run_queue_ok h _ _ (NewCache_queue_ok duration) Hrun)
    as (_ & _ & Httl). simpl in Httl.
  destruct (run_tracked key h _ _ None None (NewCache_tracked key duration)
              Hrun item Hk) as [Ht Hs].
  rewrite Httl in Ht. done.
Qed.

(** ** Claims about [Get] *)

(** C3: a [Get] of a key whose entry is present and not expired returns
    its payload with [found = true] and refreshes its expiry to
    [now + ttl], leaving the rest of the cache as it was; in a state
    reached from [NewCache] that payload is the one stored by the most
    recent [Set] of the key; in particular after a [Set] at [t0], a [Get]
    at any [t1] with [t0 <= t1 < t0 + ttl] succeeds with the value set and
    leaves the entry expiring at [t1 + ttl] (the cache is then what a
    [Set] at [t1] would have left). *)
Theorem Get_hit_refreshes_expiry :
  (∀ (now : Z) (key : string) (cache : Cache) (item : Item),
     items cache !! key = Some item → ¬ now > expiresAt item →
     Get now key cache =
       ((data item, true),
        with_items
          (<[key := {| data := data item; expiresAt := now + ttl cache |}]>
             (items cache)) cache))
  ∧ (∀ (duration : Z) (h : list (Z * Call)) (cache : Cache) (key : string)
       (item : Item),
       run h (fst (NewCache duration)) = Some cache →
       items cache !! key = Some item →
       last_set key h None = Some (data item))
  ∧ (∀ (t0 t1 : Z) (key value : string) (cache : Cache),
       t0 ≤ t1 < t0 + ttl cache →
       Get t1 key (Set_ t0 key value cache)
         = ((value, true), Set_ t1 key value cache)
       ∧ items (snd (Get t1 key (Set_ t0 key value cache))) !! key
           = Some {| data := value; expiresAt := t1 + ttl cache |}).
Proof.
  split_and!.
  - intros now key cache item Hk He. apply Get_found; [done|].
    apply expired_false. lia.
  - intros duration h cache key item Hrun Hk.
    by destruct (history_entry duration h cache key item Hrun Hk) as (_ & ? & _).
  - intros t0 t1 key value cache Ht.
    assert (Hg : Get t1 key (Set_ t0 key value cache)
                 = ((value, true), Set_ t1 key value cache)).
    { rewrite (Get_found t1 key (Set_ t0 key value cache)
                 {| data := value; expiresAt := t0 + ttl cache |}).
      - unfold Set_, with_items, touch. simpl. by rewrite insert_insert_eq.
      - unfold Set_. simpl. by rewrite lookup_insert_eq.
      - apply expired_false. simpl. lia. }
    split; [done|]. rewrite Hg. unfold Set_. simpl. by rewrite lookup_insert_eq.
Qed.

(** C4: a [Get] of a key that is absent, or whose entry is expired
    ([now > expiresAt]), returns the empty string with [found = false] and
    leaves the cache exactly as it was, the expired entry included; and in
    any state reached from [NewCache], whether or not the sweep has run, a
    key last touched at [t0] is not found at any [t1 > t0 + ttl]. *)
Theorem Get_miss_leaves_cache :
  (∀ (now : Z) (key : string) (cache : Cache),
     items cache !! key = None →
     Get now key cache = ((""%string, false), cache))
  ∧ (∀ (now : Z) (key : string) (cache : Cache) (item : Item),
       items cache !! key = Some item → now > expiresAt item →
       Get now key cache = ((""%string, false), cache)
       ∧ items (snd (Get now key cache)) !! key = Some item)
  ∧ (∀ (duration : Z) (h : list (Z * Call)) (cache : Cache) (key : string)
       (t0 t1 : Z),
       run h (fst (NewCache duration)) = Some cache →
       last_touch key h (fst (NewCache duration)) None = Some t0 →
       t1 > t0 + duration →
       Get t1 key cache = ((""%string, false), cache)).
Proof.
  split_and!.
  - intros now key cache Hk. by apply Get_absent.
  - intros now key cache item Hk He. apply expired_spec in He.
    by rewrite (Get_stale _ _ _ _ Hk He).
  - intros duration h cache key t0 t1 Hrun Ht0 Ht1.
    destruct (items cache !! key) as [item|] eqn:Hk; [|by apply Get_absent].
    destruct (history_entry duration h cache key item Hrun Hk) as (Ht & _ & _).
    rewrite Ht in Ht0. injection Ht0 as Ht0.
    apply (Get_stale _ _ _ _ Hk). apply expired_spec. lia.
Qed.

(** C5: in every state reached from [NewCache], each entry expires [ttl]
    after the last touch of its key (a [Set] of it or a [Get] that found
    it).  A call made in such a state either touches the key, and the
    entry then expires at [now + ttl] (not earlier than before when the
    clock has not gone back behind the last touch), or leaves the entry,
    when it is still there, exactly as it was.  Across any further
    sequence of calls, an entry that is there before and after expires
    when it did before, unless its key was touched meanwhile, and then
    [ttl] after the last of these touches. *)
Theorem expiresAt_is_last_touch_plus_ttl
    (duration : Z) (h : list (Z * Call)) (cache : Cache) :
  run h (fst (NewCache duration)) = Some cache →
  (∀ key item, items cache !! key = Some item →
     ∃ t0, last_touch key h (fst (NewCache duration)) None = Some t0
           ∧ expiresAt item = t0 + duration)
  ∧ (∀ now call cache' key item item',
       exec now call cache = Some cache' →
       items cache !! key = Some item → items cache' !! key = Some item' →
       if touches key now call cache
       then expiresAt item' = now + duration
            ∧ (∀ t0, last_touch key h (fst (NewCache duration)) None = Some t0 →
                 t0 ≤ now → expiresAt item ≤ expiresAt item')
       else item' = item)
  ∧ (∀ h' cache' key item item',
       run h' cache = Some cache' →
       items cache !! key = Some item → items cache' !! key = Some item' →
       match last_touch key h' cache None with
       | Some t => expiresAt item' = t + duration
       | None => expiresAt item' = expiresAt item
       end).
Proof.
  intros Hrun. split_and!.
  - intros key item Hk.
    destruct (history_entry duration h cache key item Hrun Hk) as (Ht & _ & _).
    exists (expiresAt item - duration). split; [done|lia].
  - intros now call cache' key item item' Hex Hk Hk'.
    destruct (history_entry duration h cache key item Hrun Hk)
      as (Ht & _ & Httl).
    pose proof (exec_expiry _ _ _ _ key item' Hex Hk') as Hstep.
    destruct (touches key now call cache).
    + rewrite Httl in Hstep. split; [done|].
      intros t0 Ht0 Hle. rewrite Ht in Ht0. injection Ht0 as Ht0. lia.
    + congruence.
  - intros h' cache' key item item' Hrun' Hk Hk'.
    destruct (history_entry duration h cache key item Hrun Hk)
      as (_ & _ & Httl).
    rewrite <- Httl. by apply (run_expiry key h' cache cache' item item').
Qed.

(** ** Claims about [Set], [Count], [Delete] and [NewCache] *)

(** C6: [Set] always returns; it stores under the key the payload with
    expiry [now + ttl], whether or not the key was there, and changes no
    other entry.  After [Set(k, v1)] then [Set(k, v2)] the map has one
    entry for [k], holding [v2]; the second [Set] does not change
    [Count], nor does any [Set] of a key already present; and neither
    [Set] changes the notification queue. *)
Theorem Set_inserts_or_overwrites
    (now1 now2 : Z) (key v1 v2 : string) (cache : Cache) :
  let c1 := Set_ now1 key v1 cache in
  let c2 := Set_ now2 key v2 c1 in
  items c1 !! key = Some {| data := v1; expiresAt := now1 + ttl cache |}
  ∧ (∀ k, k ≠ key → items c1 !! k = items cache !! k)
  ∧ items c2 !! key = Some {| data := v2; expiresAt := now2 + ttl cache |}
  ∧ (∀ k, k ≠ key → items c2 !! k = items cache !! k)
  ∧ (∀ item, (key, item) ∈ map_to_list (items c2) ↔
               item = {| data := v2; expiresAt := now2 + ttl cache |})
  ∧ c2 = Set_ now2 key v2 cache
  ∧ fst (Count c2) = fst (Count c1)
  ∧ (is_Some (items cache !! key) → fst (Count c1) = fst (Count cache))
  ∧ (items cache !! key = None → fst (Count c1) = fst (Count cache) + 1)
  ∧ FinishedItems c1 = FinishedItems cache
  ∧ FinishedItems c2 = FinishedItems cache
  ∧ ttl c2 = ttl cache ∧ Length c2 = Length cache.
Proof.
  intros c1 c2. subst c1 c2. unfold Set_, touch. simpl.
  split_and!; try done.
  - by rewrite lookup_insert_eq.
  - intros k Hne. by rewrite lookup_insert_ne.
  - by rewrite lookup_insert_eq.
  - intros k Hne. by rewrite !lookup_insert_ne.
  - intros item. rewrite elem_of_map_to_list, lookup_insert_eq.
    split; [by intros [= <-]|by intros ->].
  - unfold with_items. simpl. by rewrite insert_insert_eq.
  - f_equal. rewrite map_size_insert_Some; [done|].
    rewrite lookup_insert_eq. eauto.
  - intros Hk. f_equal. by rewrite map_size_insert_Some.
  - intros Hk. rewrite map_size_insert_None by done. lia.
Qed.

(** C7: [Count] returns the number of entries of the map, the expired
    ones that the sweep has not removed yet and the unexpired ones alike,
    and leaves the cache as it was. *)
Theorem Count_counts_every_entry (now : Z) (cache : Cache) :
  fst (Count cache) = Z.of_nat (length (map_to_list (items cache)))
  ∧ fst (Count cache) =
      Z.of_nat (size (stale now (items cache)))
      + Z.of_nat (size (unexpired now (items cache)))
  ∧ snd (Count cache) = cache.
Proof.
  unfold Count. simpl. split_and!; [|  |done].
  - by rewrite length_map_to_list.
  - rewrite (size_stale_unexpired now (items cache)). lia.
Qed.

(** C8: [NewCache] accepts any duration, zero and negative ones too; the
    cache it returns has an empty map, that [ttl], and an empty queue of
    capacity [Length = 10]; the sweeper it starts ticks every [ttl], or
    every second when [ttl] is shorter than a second, so two runs of the
    sweep are at least one second apart. *)
Theorem NewCache_builds_empty_cache (duration : Z) :
  let cache := fst (NewCache duration) in
  let sweeper := snd (NewCache duration) in
  items cache = ∅
  ∧ fst (Count cache) = 0
  ∧ ttl cache = duration
  ∧ Length cache = 10
  ∧ FinishedItems cache = {| buf := []; cap := 10 |}
  ∧ period sweeper = Z.max duration Second
  ∧ Second ≤ period sweeper
  ∧ (∀ start n,
       tick_time start sweeper (S n) - tick_time start sweeper n
         = period sweeper).
Proof.
  intros cache sweeper. subst cache sweeper.
  unfold NewCache, startCleanupTimer, tick_time. simpl.
  split_and!; try done.
  - destruct (Z.ltb_spec duration Second); lia.
  - destruct (Z.ltb_spec duration Second); lia.
  - intros start n. lia.
Qed.

(** C9: [Delete] always returns; the key has no entry afterwards and no
    other entry changes; on an absent key it leaves the cache, hence
    [Count], as it was, and on a present one [Count] goes down by one;
    deleting twice is deleting once. *)
Theorem Delete_idempotent (key : string) (cache : Cache) :
  items (Delete key cache) !! key = None
  ∧ (∀ k, k ≠ key → items (Delete key cache) !! k = items cache !! k)
  ∧ (items cache !! key = None →
       Delete key cache = cache
       ∧ fst (Count (Delete key cache)) = fst (Count cache))
  ∧ (is_Some (items cache !! key) →
       fst (Count (Delete key cache)) = fst (Count cache) - 1)
  ∧ Delete key (Delete key cache) = Delete key cache.
Proof.
  unfold Delete, Count. simpl. split_and!.
  - by rewrite lookup_delete_eq.
  - intros k Hne. by rewrite lookup_delete_ne.
  - intros Hk. rewrite delete_id by done. by rewrite with_items_id.
  - intros Hk. rewrite map_size_delete_Some by done.
    destruct Hk as [item Hk].
    assert (size (items cache) ≠ 0%nat).
    { intros H0. apply map_size_empty_inv in H0. rewrite H0 in Hk.
      by rewrite lookup_empty in Hk. }
    lia.
  - unfold with_items. simpl. by rewrite delete_delete_eq.
Qed.

(** C10: [Delete] leaves the notification queue as it was, whatever the
    state of the entry it removes, expired or not; so does every call of
    a client; and a run of the sweep after the [Delete] publishes the
    payloads of the expired entries other than the deleted one. *)
Theorem Delete_leaves_queue :
  (∀ (key : string) (cache : Cache),
     FinishedItems (Delete key cache) = FinishedItems cache
     ∧ Length (Delete key cache) = Length cache)
  ∧ (∀ (now : Z) (call : Call) (cache cache' : Cache),
       client_call call = true → exec now call cache = Some cache' →
       FinishedItems cache' = FinishedItems cache)
  ∧ (∀ (now : Z) (order : list string) (key : string) (cache : Cache),
       range_order (items (Delete key cache)) order →
       reclaimed now order (items (Delete key cache))
         ≡ₚ data <$> (map_to_list (delete key (stale now (items cache)))).*2).
Proof.
  split_and!.
  - done.
  - intros now call cache cache' Hcl Hex.
    destruct call as [k v|k| k | |order|]; try done; simpl in Hex;
      injection Hex as <-; try done.
    by destruct (Get_cases now k cache) as [[_ ->]|(it & _ & _ & ->)].
  - intros now order key cache Hord.
    rewrite (reclaimed_stale now order _ Hord). unfold Delete, stale. simpl.
    by rewrite map_filter_delete.
Qed.

(** ** The theorems at concrete caches *)


Lemma sweep_queue_drops_oldest_witness :
  queue_ok cache_eleven ∧ range_order (items cache_eleven) order_eleven
  ∧ (Z.to_nat (Length cache_eleven)
       ≤ length (reclaimed 5 order_eleven (items cache_eleven)))%nat
  ∧ ∃ cache', cleanup 5 order_eleven cache_eleven = Some cache'
      ∧ buf (FinishedItems cache') =
          last_n 10 (reclaimed 5 order_eleven (items cache_eleven))
      ∧ len (FinishedItems cache') ≤ 10.
Proof.
  assert (Hok : queue_ok cache_eleven) by (unfold queue_ok, len; simpl; lia).
  assert (Hord : range_order (items cache_eleven) order_eleven)
    by apply range_order_keys.
  assert (Hmany : (Z.to_nat (Length cache_eleven)
             ≤ length (reclaimed 5 order_eleven (items cache_eleven)))%nat)
    by (vm_compute; lia).
  split; [exact Hok|]. split; [exact Hord|]. split; [exact Hmany|].
  destruct (sweep_queue_drops_oldest 5 order_eleven cache_eleven Hok Hord)
    as (_ & cache' & Hrun & _ & _ & _ & Hlast & Hlen & _).
  exists cache'. split; [exact Hrun|]. split; [exact (Hlast Hmany)|exact Hlen].
Defined.

Lemma Get_hit_refreshes_expiry_witness :
  Get 7 "b" cache_ab =
    (("2"%string, true),
     with_items (<["b"%string := {| data := "2"; expiresAt := 12 |}]>
                   (items cache_ab)) cache_ab)
  ∧ last_set "a" history_a None = Some "1"%string
  ∧ Get 3 "a" (Set_ 0 "a" "1" (fst (NewCache 5)))
      = (("1"%string, true), Set_ 3 "a" "1" (fst (NewCache 5))).
Proof.
  destruct Get_hit_refreshes_expiry as (Hhit & Hset & Hlife).
  split_and!.
  - apply (Hhit 7 "b"%string cache_ab {| data := "2"; expiresAt := 9 |});
      [reflexivity|simpl; lia].
  - apply (Hset 5 history_a cache_a "a"%string
             {| data := "1"; expiresAt := 8 |}); reflexivity.
  - apply (Hlife 0 3 "a"%string "1"%string (fst (NewCache 5))). simpl. lia.
Defined.

Lemma Get_miss_leaves_cache_witness :
  Get 7 "z" cache_ab = ((""%string, false), cache_ab)
  ∧ Get 7 "a" cache_ab = ((""%string, false), cache_ab)
  ∧ Get 9 "a" cache_a = ((""%string, false), cache_a).
Proof.
  destruct Get_miss_leaves_cache as (Habsent & Hstale & Hlate).
  split_and!.
  - apply (Habsent 7 "z"%string cache_ab). reflexivity.
  - apply (Hstale 7 "a"%string cache_ab {| data := "1"; expiresAt := 5 |});
      [reflexivity|simpl; lia].
  - apply (Hlate 5 history_a cache_a "a"%string 3 9); [reflexivity..|lia].
Defined.

Lemma expiresAt_is_last_touch_plus_ttl_witness :
  run history_a (fst (NewCache 5)) = Some cache_a
  ∧ (∃ t0, last_touch "a" history_a (fst (NewCache 5)) None = Some t0
           ∧ 8 = t0 + 5)
  ∧ (∀ item',
       items (Set_ 6 "a" "2" cache_a) !! "a"%string = Some item' →
       expiresAt item' = 6 + 5)
  ∧ (∀ item',
       items (Delete "b" cache_a) !! "a"%string = Some item' →
       expiresAt item' = 8).
Proof.
  assert (Hrun : run history_a (fst (NewCache 5)) = Some cache_a)
    by reflexivity.
  split; [exact Hrun|].
  destruct (expiresAt_is_last_touch_plus_ttl 5 history_a cache_a Hrun)
    as (Hinv & Hstep & Hseq).
  split_and!.
  - apply (Hinv "a"%string {| data := "1"; expiresAt := 8 |}). reflexivity.
  - intros item' Hk'.
    apply (Hstep 6 (CallSet "a" "2") (Set_ 6 "a" "2" cache_a) "a"%string
             {| data := "1"; expiresAt := 8 |} item'); [reflexivity..|exact Hk'].
  - intros item' Hk'.
    apply (Hseq [(9, CallGet "a"); (9, CallDelete "b")] (Delete "b" cache_a)
             "a"%string {| data := "1"; expiresAt := 8 |} item');
      [reflexivity..|exact Hk'].
Defined.

Lemma Set_inserts_or_overwrites_witness :
  items (Set_ 2 "a" "9" (Set_ 1 "a" "8" cache_ab)) !! "a"%string
    = Some {| data := "9"; expiresAt := 7 |}
  ∧ fst (Count (Set_ 1 "a" "8" cache_ab)) = fst (Count cache_ab)
  ∧ fst (Count (Set_ 1 "z" "8" cache_ab)) = fst (Count cache_ab) + 1.
Proof.
  split_and!.
  - apply (Set_inserts_or_overwrites 1 2 "a" "8" "9" cache_ab).
  - apply (Set_inserts_or_overwrites 1 2 "a" "8" "9" cache_ab).
    exists {| data := "1"; expiresAt := 5 |}. reflexivity.
  - apply (Set_inserts_or_overwrites 1 2 "z" "8" "9" cache_ab). reflexivity.
Defined.

Lemma Delete_idempotent_witness :
  Delete "z" cache_ab = cache_ab
  ∧ fst (Count (Delete "z" cache_ab)) = fst (Count cache_ab)
  ∧ fst (Count (Delete "a" cache_ab)) = fst (Count cache_ab) - 1
  ∧ Delete "a" (Delete "a" cache_ab) = Delete "a" cache_ab.
Proof.
  destruct (Delete_idempotent "z" cache_ab) as (_ & _ & Habsent & _ & _).
  destruct (Delete_idempotent "a" cache_ab) as (_ & _ & _ & Hpresent & Htwice).
  destruct (Habsent eq_refl) as [Hsame Hcount].
  split_and!; [exact Hsame|exact Hcount| |exact Htwice].
  apply Hpresent. exists {| data := "1"; expiresAt := 5 |}. reflexivity.
Defined.

Lemma Delete_leaves_queue_witness :
  FinishedItems (Delete "a" cache_ab) = FinishedItems cache_ab
  ∧ FinishedItems (snd (Get 3 "a" cache_ab)) = FinishedItems cache_ab
  ∧ reclaimed 7 ["b"%string] (items (Delete "a" cache_ab))
      ≡ₚ data <$> (map_to_list (delete "a"%string (stale 7 (items cache_ab)))).*2.
Proof.
  destruct Delete_leaves_queue as (Hdel & Hclient & Hsweep).
  split_and!.
  - apply (Hdel "a"%string cache_ab).
  - apply (Hclient 3 (CallGet "a") cache_ab); reflexivity.
  - apply (Hsweep 7 ["b"%string] "a"%string cache_ab).
    unfold range_order. vm_compute. reflexivity.
Defined.

(** ** The publish step against receiving consumers *)

Lemma run_history_full : run history_full (fst (NewCache 1)) = Some cache_full.
Proof. reflexivity. Defined.

Lemma publish_racing_quiet (v : string) (cache cache' : Cache) :
  publish v cache = Some cache' → publish_racing 0 v cache = Returns cache'.
Proof.
  unfold publish, publish_racing, drain. simpl. rewrite drop_0.
  assert (Hch : {| buf := buf (FinishedItems cache);
                   cap := cap (FinishedItems cache) |} = FinishedItems cache)
    by (by destruct (FinishedItems cache)).
  rewrite Hch.
  assert (Hc : with_FinishedItems (FinishedItems cache) cache = cache)
    by apply cache_eta.
  rewrite Hc.
  destruct (if bool_decide (len (FinishedItems cache) = Length cache)
            then snd <$> chan_recv (FinishedItems cache)
            else Some (FinishedItems cache)) as [ch|]; [|done].
  simpl. destruct (chan_send v ch) as [ch'|]; [|done].
  simpl. by intros [= <-].
Qed.

(** The publish step returns, the payload last in the queue, as long as
    consumers take fewer than [Length] values within it. *)
Lemma publish_racing_returns (n : nat) (v : string) (cache : Cache) :
  queue_ok cache → (n < Z.to_nat (Length cache))%nat →
  ∃ cache',
    publish_racing n v cache = Returns cache'
    ∧ last (buf (FinishedItems cache')) = Some v
    ∧ items cache' = items cache ∧ ttl cache' = ttl cache
    ∧ Length cache' = Length cache ∧ queue_ok cache'.
Proof.
  intros (Hcap & Hpos & Hle) Hn. unfold publish_racing, len in *.
  pose proof (length_drop (buf (FinishedItems cache)) n) as Hdrop.
  case_bool_decide as Hfull; simpl.
  - unfold chan_recv. simpl.
    destruct (drop n (buf (FinishedItems cache))) as [|old rest] eqn:Hbuf;
      [simpl in Hdrop; lia|].
    simpl in *. unfold chan_send, len. simpl.
    destruct (Z.ltb_spec (Z.of_nat (length rest)) (cap (FinishedItems cache)))
      as [_|Hge]; [|lia].
    eexists. split; [done|]. simpl. split_and!; try done.
    + apply last_snoc.
    + unfold queue_ok, len. simpl. rewrite length_app. simpl. split_and!; lia.
  - unfold chan_send, len. simpl.
    destruct (Z.ltb_spec
                (Z.of_nat (length (drop n (buf (FinishedItems cache)))))
                (cap (FinishedItems cache))) as [_|Hge]; [|lia].
    eexists. split; [done|]. simpl. split_and!; try done.
    + apply last_snoc.
    + unfold queue_ok, len. simpl. rewrite length_app. simpl. split_and!; lia.
Qed.

(** The publish step parks, on a queue left empty, when the queue was full
    at the test and consumers have taken all its values since. *)
Lemma publish_racing_parks (n : nat) (v : string) (cache : Cache) :
  len (FinishedItems cache) = Length cache →
  (Z.to_nat (Length cache) ≤ n)%nat →
  publish_racing n v cache =
    Parks (with_FinishedItems
             {| buf := []; cap := cap (FinishedItems cache) |} cache).
Proof.
  intros Hfull Hn. unfold publish_racing.
  rewrite bool_decide_eq_true_2 by done. unfold len in Hfull.
  assert (Hbuf : drain n (FinishedItems cache)
                 = {| buf := []; cap := cap (FinishedItems cache) |}).
  { unfold drain. f_equal. apply drop_ge. lia. }
  by rewrite Hbuf.
Qed.

Lemma cleanup_racing_returns (now : Z) (visits : list (string * nat))
    (cache : Cache) :
  queue_ok cache →
  Forall (λ visit : string * nat, (visit.2 < Z.to_nat (Length cache))%nat)
    visits →
  ∃ cache', cleanup_racing now visits cache = Returns cache'.
Proof.
  intros Hok Hvisits. revert cache Hok Hvisits.
  induction visits as [|visit rest IH]; intros cache Hok Hvisits; simpl.
  - by eexists.
  - apply Forall_cons in Hvisits as [Hn Hrest].
    unfold cleanup_body_racing.
    destruct (items cache !! visit.1) as [item|]; [|by apply IH].
    destruct (expired now item); [|by apply IH].
    destruct (publish_racing_returns visit.2 (data item)
                (with_items (delete visit.1 (items cache)) cache) Hok Hn)
      as (c1 & -> & _ & _ & _ & Hlen & Hok1).
    apply IH; [done|]. simpl in Hlen. by rewrite Hlen.
Qed.

Lemma cleanup_racing_quiet (now : Z) (order : list string)
    (cache cache' : Cache) :
  cleanup now order cache = Some cache' →
  cleanup_racing now (quiet order) cache = Returns cache'.
Proof.
  revert cache. induction order as [|key rest IH]; intros cache; simpl.
  - by intros [= <-].
  - destruct (cleanup_body now cache key) as [c1|] eqn:Hb; [|done]. simpl.
    intros Hrest.
    assert (cleanup_body_racing now cache (key, 0%nat) = Returns c1) as ->;
      [|by apply IH].
    unfold cleanup_body, cleanup_body_racing in *. simpl.
    destruct (items cache !! key) as [item|]; [|by injection Hb as <-].
    destruct (expired now item); [|by injection Hb as <-].
    by apply publish_racing_quiet.
Qed.

(** C2: the publish step of the sweep can park.  The test of the length
    of the queue and the receive that drops the oldest value are two
    statements, and consumers receive on [FinishedItems] without the
    mutex.  On a queue of capacity [Length] that is full at the test:
    when consumers take fewer than [Length] values before the receive,
    the step returns with the payload last in the queue; when they take
    them all, the receive finds the queue empty and the step parks, so a
    run of the sweep that visits an expired entry then parks with the
    entry deleted from the map, its payload not sent and the queue
    empty. *)
Theorem publish_parks_on_drained_queue
    (now : Z) (key v : string) (item : Item) (cache : Cache) :
  queue_ok cache → len (FinishedItems cache) = Length cache →
  items cache !! key = Some item → now > expiresAt item →
  let n := Z.to_nat (Length cache) in
  let parked :=
    with_FinishedItems {| buf := []; cap := cap (FinishedItems cache) |} in
  publish_racing n v cache = Parks (parked cache)
  ∧ (∀ m, (m < n)%nat →
       ∃ cache', publish_racing m v cache = Returns cache'
                 ∧ last (buf (FinishedItems cache')) = Some v)
  ∧ cleanup_racing now [(key, n)] cache
      = Parks (parked (with_items (delete key (items cache)) cache))
  ∧ ∃ cache', cleanup now [key] cache = Some cache'
              ∧ last (buf (FinishedItems cache')) = Some (data item).
Proof.
  intros Hok Hfull Hk He n parked. subst n parked. split_and!.
  - by apply publish_racing_parks.
  - intros m Hm.
    destruct (publish_racing_returns m v cache Hok Hm) as (c' & Hp & Hl & _).
    by exists c'.
  - simpl. unfold cleanup_body_racing. simpl.
    apply expired_spec in He. rewrite Hk, He.
    by rewrite (publish_racing_parks _ (data item)
                  (with_items (delete key (items cache)) cache)).
  - simpl. unfold cleanup_body. apply expired_spec in He. rewrite Hk, He.
    destruct (publish_last_n (data item)
                (with_items (delete key (items cache)) cache) Hok)
      as (c' & Hp & Hbuf & _).
    rewrite Hp. simpl. exists c'. split; [done|]. rewrite Hbuf.
    unfold last_n. simpl.
    destruct Hok as (_ & Hpos & _).
    rewrite drop_app_le by (rewrite length_app; simpl; lia).
    apply last_snoc.
Qed.

(** ** Further properties of the sweep *)

(** A run of the sweep over the whole map, in one statement. *)
Lemma cleanup_range (now : Z) (order : list string) (cache : Cache) :
  queue_ok cache → range_order (items cache) order →
  ∃ cache',
    cleanup now order cache = Some cache'
    ∧ items cache' = unexpired now (items cache)
    ∧ buf (FinishedItems cache') =
        last_n (Z.to_nat (Length cache))
          (buf (FinishedItems cache) ++ reclaimed now order (items cache))
    ∧ ttl cache' = ttl cache ∧ Length cache' = Length cache
    ∧ queue_ok cache'.
Proof.
  intros Hok Hord.
  destruct (cleanup_visits now order cache Hok (range_order_NoDup _ _ Hord))
    as (cache' & Hrun & Hlk & Hbuf & Hcap & Httl & Hlen & Hok').
  exists cache'. split_and!; try done.
  apply map_eq. intros k. rewrite Hlk.
  destruct (decide (k ∈ order)) as [Hin|Hout]; [done|].
  rewrite unexpired_lookup.
  destruct (items cache !! k) as [item|] eqn:Hk; [|done].
  exfalso. apply Hout. apply (range_order_elem _ _ _ Hord). eauto.
Qed.

Lemma cleanup_fresh (now : Z) (order : list string) (cache : Cache) :
  (∀ key item, items cache !! key = Some item → expired now item = false) →
  cleanup now order cache = Some cache.
Proof.
  intros Hfresh. induction order as [|key rest IH]; [done|].
  simpl. unfold cleanup_body.
  destruct (items cache !! key) as [item|] eqn:Hk; [|done].
  by rewrite (Hfresh key item Hk).
Qed.

Lemma cleanup_returns (now : Z) (order : list string) (cache : Cache) :
  queue_ok cache → ∃ cache', cleanup now order cache = Some cache'.
Proof.
  revert cache. induction order as [|key rest IH]; intros cache Hok; simpl.
  - by exists cache.
  - assert (∃ c1, cleanup_body now cache key = Some c1) as [c1 Hb].
    { unfold cleanup_body.
      destruct (items cache !! key) as [item|]; [|by eexists].
      destruct (expired now item); [|by eexists].
      destruct (publish_last_n (data item)
                  (with_items (delete key (items cache)) cache) Hok)
        as (c1 & Hp & _). by exists c1. }
    rewrite Hb. simpl. apply IH.
    by destruct (cleanup_body_queue_ok _ _ _ _ Hok Hb).
Qed.

Lemma unexpired_unexpired (now1 now2 : Z) (m : gmap string Item) :
  now1 ≤ now2 → unexpired now2 (unexpired now1 m) = unexpired now2 m.
Proof.
  intros Hle. apply map_eq. intros k. rewrite !unexpired_lookup.
  destruct (m !! k) as [item|]; [|done].
  destruct (expired now1 item) eqn:H1; [|done].
  destruct (expired now2 item) eqn:H2; [done|].
  apply expired_spec in H1. apply expired_false in H2. lia.
Qed.

(** X1: a run of the sweep at an instant when no entry is expired
    changes nothing, whatever keys it visits and whatever the state of
    the queue (full, or of a capacity other than [Length]): it reaches no
    send and no receive. *)
Theorem sweep_without_expired_entry
    (now : Z) (order : list string) (cache : Cache) :
  (∀ key item, items cache !! key = Some item → ¬ now > expiresAt item) →
  cleanup now order cache = Some cache.
Proof.
  intros Hfresh. apply cleanup_fresh. intros key item Hk.
  apply expired_false. specialize (Hfresh key item Hk). lia.
Qed.

(** X2: after a run of the sweep at [now], a second run at that instant
    or at an earlier reading of the clock, in any order, changes nothing:
    neither the map nor the queue. *)
Theorem sweep_twice_is_sweep_once
    (now now' : Z) (order order' : list string) (cache cache' : Cache) :
  queue_ok cache → range_order (items cache) order →
  cleanup now order cache = Some cache' → now' ≤ now →
  cleanup now' order' cache' = Some cache'.
Proof.
  intros Hok Hord Hrun Hle.
  destruct (cleanup_range now order cache Hok Hord)
    as (c & Hrun' & Hitems & _). rewrite Hrun in Hrun'. injection Hrun' as <-.
  apply cleanup_fresh. intros key item. rewrite Hitems, unexpired_lookup.
  destruct (items cache !! key) as [item0|]; [|done].
  destruct (expired now item0) eqn:He; [done|].
  intros [= <-]. apply expired_false in He. apply expired_false. lia.
Qed.

(** X3: a run of the sweep is invisible to readers: at the instant of the
    run and at any later one, [Get] returns for every key the same payload
    and the same [found] after the run as it would have without it. *)
Theorem sweep_transparent_to_Get
    (now now' : Z) (order : list string) (cache cache' : Cache)
    (key : string) :
  queue_ok cache → range_order (items cache) order →
  cleanup now order cache = Some cache' → now ≤ now' →
  fst (Get now' key cache') = fst (Get now' key cache).
Proof.
  intros Hok Hord Hrun Hle.
  destruct (cleanup_range now order cache Hok Hord)
    as (c & Hrun' & Hitems & _). rewrite Hrun in Hrun'. injection Hrun' as <-.
  unfold Get. rewrite Hitems, unexpired_lookup.
  destruct (items cache !! key) as [item|]; [|done].
  destruct (expired now item) eqn:He.
  - assert (expired now' item = true) as ->; [|done].
    apply expired_spec in He. apply expired_spec. lia.
  - by destruct (expired now' item).
Qed.

(** X4: two runs of the sweep, the second no earlier than the first,
    leave the map one run at the second instant would leave, and the
    queue holds the last [Length] values of its old content followed by
    the payloads of the first run, then those of the second. *)
Theorem two_sweeps_compose
    (now1 now2 : Z) (order1 order2 : list string) (cache c1 c2 : Cache) :
  queue_ok cache → now1 ≤ now2 →
  range_order (items cache) order1 → cleanup now1 order1 cache = Some c1 →
  range_order (items c1) order2 → cleanup now2 order2 c1 = Some c2 →
  items c2 = unexpired now2 (items cache)
  ∧ buf (FinishedItems c2) =
      last_n (Z.to_nat (Length cache))
        (buf (FinishedItems cache)
           ++ reclaimed now1 order1 (items cache)
           ++ reclaimed now2 order2 (items c1))
  ∧ fst (Count c2) =
      fst (Count cache) - Z.of_nat (size (stale now2 (items cache))).
Proof.
  intros Hok Hle Hord1 Hrun1 Hord2 Hrun2.
  destruct (cleanup_range now1 order1 cache Hok Hord1)
    as (c & Hrun & Hitems1 & Hbuf1 & _ & Hlen1 & Hok1).
  rewrite Hrun1 in Hrun. injection Hrun as <-.
  destruct (cleanup_range now2 order2 c1 Hok1 Hord2)
    as (c & Hrun & Hitems2 & Hbuf2 & _ & _ & _).
  rewrite Hrun2 in Hrun. injection Hrun as <-.
  assert (Hitems : items c2 = unexpired now2 (items cache)).
  { by rewrite Hitems2, Hitems1, unexpired_unexpired. }
  split_and!; [done| |].
  - rewrite Hbuf2, Hbuf1, Hlen1, last_n_app_l. by rewrite <- app_assoc.
  - unfold Count. simpl. rewrite Hitems.
    rewrite (size_stale_unexpired now2 (items cache)). lia.
Qed.

(** X5: no notification is lost while the queue has room: when the
    values already queued and the expired entries together are no more
    than [Length], a run of the sweep appends the payloads of all the
    entries it removes, in the order of the visit, and drops nothing. *)
Theorem sweep_within_capacity_loses_nothing
    (now : Z) (order : list string) (cache : Cache) :
  queue_ok cache → range_order (items cache) order →
  len (FinishedItems cache) + Z.of_nat (size (stale now (items cache)))
    ≤ Length cache →
  ∃ cache',
    cleanup now order cache = Some cache'
    ∧ buf (FinishedItems cache') =
        buf (FinishedItems cache) ++ reclaimed now order (items cache)
    ∧ len (FinishedItems cache') =
        len (FinishedItems cache) + Z.of_nat (size (stale now (items cache))).
Proof.
  intros Hok Hord Hfit.
  destruct (cleanup_range now order cache Hok Hord)
    as (cache' & Hrun & _ & Hbuf & _).
  assert (Hn : length (reclaimed now order (items cache))
               = size (stale now (items cache))).
  { rewrite (reclaimed_stale now order (items cache) Hord).
    by rewrite !length_fmap, length_map_to_list. }
  assert (Hall : buf (FinishedItems cache') =
                 buf (FinishedItems cache) ++ reclaimed now order (items cache)).
  { rewrite Hbuf. apply last_n_all. rewrite length_app, Hn.
    unfold len in Hfit. lia. }
  exists cache'. split_and!; [done..|].
  unfold len. rewrite Hall, length_app, Hn. lia.
Qed.

(** ** Further properties of histories *)

(** X6: every state a cache built by [NewCache] reaches keeps its [ttl],
    has [Length = 10] and a queue of capacity 10 holding at most 10
    values.  From such a state a run of the sweep returns, at any instant
    and whatever keys it visits, as long as consumers receive fewer than
    10 values between the test of the length and the receive of each of
    its publish steps; in particular a run that no receive interrupts
    returns. *)
Theorem reachable_cache_invariant
    (duration : Z) (h : list (Z * Call)) (cache : Cache) :
  run h (fst (NewCache duration)) = Some cache →
  ttl cache = duration
  ∧ Length cache = 10
  ∧ cap (FinishedItems cache) = 10
  ∧ len (FinishedItems cache) ≤ 10
  ∧ (∀ now visits,
       Forall (λ visit : string * nat, (visit.2 < 10)%nat) visits →
       ∃ cache', cleanup_racing now visits cache = Returns cache')
  ∧ (∀ now order,
       ∃ cache', cleanup now order cache = Some cache'
                 ∧ cleanup_racing now (quiet order) cache = Returns cache').
Proof.
  intros Hrun.
  destruct (run_queue_ok h _ _ (NewCache_queue_ok duration) Hrun)
    as (Hok & Hlen & Httl). simpl in Hlen, Httl.
  pose proof Hok as (Hcap & _ & Hle).
  split_and!; [done|done|congruence|lia| |].
  - intros now visits Hvisits. apply cleanup_racing_returns; [done|].
    by rewrite Hlen.
  - intros now order.
    destruct (cleanup_returns now order cache Hok) as [cache' Hsweep].
    exists cache'. split; [done|]. by apply cleanup_racing_quiet.
Qed.

Lemma exec_keeps_payload (now : Z) (call : Call) (cache cache' : Cache)
    (key : string) (item' : Item) :
  exec now call cache = Some cache' →
  (∀ value, call ≠ CallSet key value) →
  items cache' !! key = Some item' →
  ∃ item, items cache !! key = Some item ∧ data item' = data item.
Proof.
  intros Hex Hcall Hk'.
  destruct call as [k v|k| k | |order|]; simpl in Hex.
  - injection Hex as <-. simpl in Hk'.
    destruct (decide (k = key)) as [->|Hne]; [by destruct (Hcall v)|].
    rewrite lookup_insert_ne in Hk' by done. eauto.
  - injection Hex as <-.
    destruct (Get_cases now k cache) as [[_ Hc]|(it & Hit & _ & Hg)].
    + rewrite Hc in Hk'. eauto.
    + rewrite Hg in Hk'. simpl in Hk'.
      destruct (decide (k = key)) as [->|Hne].
      * rewrite lookup_insert_eq in Hk'. injection Hk' as <-. eauto.
      * rewrite lookup_insert_ne in Hk' by done. eauto.
  - injection Hex as <-. simpl in Hk'.
    apply lookup_delete_Some in Hk' as [_ Hk']. eauto.
  - injection Hex as <-. eauto.
  - exists item'. split; [|done]. by eapply cleanup_lookup.
  - destruct (chan_recv (FinishedItems cache)); [|done].
    injection Hex as <-. eauto.
Qed.

(** X7: only a [Set] of a key stores a payload under it: after any other
    call ([Get], [Delete], [Count], a run of the sweep, a receive by a
    consumer, a [Set] of another key), a key that has an entry had one
    before the call, with the same payload. *)
Theorem only_Set_stores_a_payload
    (now : Z) (call : Call) (cache cache' : Cache) (key : string)
    (item' : Item) :
  exec now call cache = Some cache' →
  (∀ value, call ≠ CallSet key value) →
  items cache' !! key = Some item' →
  ∃ item, items cache !! key = Some item ∧ data item' = data item.
Proof. apply exec_keeps_payload. Qed.

Lemma exec_dom (now : Z) (call : Call) (cache cache' : Cache) :
  exec now call cache = Some cache' → is_Set call = false →
  dom (items cache') ⊆ dom (items cache).
Proof.
  intros Hex Hcall k. rewrite !elem_of_dom. intros [item' Hk'].
  destruct (exec_keeps_payload now call cache cache' k item' Hex)
    as (item & Hk & _); [|done|by eauto].
  intros value ->. done.
Qed.

Lemma exec_size (now : Z) (call : Call) (cache cache' : Cache) :
  exec now call cache = Some cache' →
  (size (items cache') ≤ size (items cache) + (if is_Set call then 1 else 0))%nat.
Proof.
  intros Hex. destruct (is_Set call) eqn:Hcall.
  - destruct call as [k v| | | | |]; try done. simpl in Hex.
    injection Hex as <-. simpl.
    destruct (items cache !! k) as [item|] eqn:Hk.
    + rewrite map_size_insert_Some by eauto. lia.
    + rewrite map_size_insert_None by done. lia.
  - rewrite <- !size_dom, Nat.add_0_r.
    apply subseteq_size. by eapply exec_dom.
Qed.

(** X8: [Count] grows only by [Set], and by one at most: a [Set] of a new
    key adds one and a [Set] of a key present adds none; a [Get], found or
    not, leaves [Count] as it is; no other call makes it grow. *)
Theorem Count_grows_only_by_Set
    (now : Z) (call : Call) (cache cache' : Cache) :
  exec now call cache = Some cache' →
  fst (Count cache') ≤ fst (Count cache) + (if is_Set call then 1 else 0)
  ∧ (∀ key, call = CallGet key → fst (Count cache') = fst (Count cache))
  ∧ (∀ key value, call = CallSet key value →
       fst (Count cache') =
         fst (Count cache)
         + match items cache !! key with Some _ => 0 | None => 1 end).
Proof.
  intros Hex. split_and!.
  - pose proof (exec_size now call cache cache' Hex) as Hsz.
    unfold Count. simpl. destruct (is_Set call); lia.
  - intros key ->. simpl in Hex. injection Hex as <-.
    destruct (Get_cases now key cache) as [[_ ->]|(it & Hit & _ & ->)];
      [done|].
    unfold Count. simpl. rewrite map_size_insert_Some by eauto. done.
  - intros key value ->. simpl in Hex. injection Hex as <-.
    unfold Count. simpl.
    destruct (items cache !! key) as [item|] eqn:Hk.
    + rewrite map_size_insert_Some by eauto. lia.
    + rewrite map_size_insert_None by done. lia.
Qed.

Lemma run_size (h : list (Z * Call)) (cache cache' : Cache) :
  run h cache = Some cache' →
  (size (items cache') ≤ size (items cache) + count_Sets h)%nat.
Proof.
  revert cache. induction h as [|[now call] h IH]; intros cache; simpl.
  - intros [= <-]. unfold count_Sets. simpl. lia.
  - destruct (exec now call cache) as [c1|] eqn:Hex; [|done]. simpl.
    intros Hrest. specialize (IH c1 Hrest).
    pose proof (exec_size now call cache c1 Hex) as Hstep.
    unfold count_Sets in *. rewrite filter_cons. simpl.
    destruct (is_Set call).
    + rewrite decide_True by done. simpl. lia.
    + rewrite decide_False by done. lia.
Qed.

(** X9: in a state a cache built by [NewCache] reaches, [Count] is at
    most the number of calls of [Set] made so far. *)
Theorem Count_bounded_by_Sets
    (duration : Z) (h : list (Z * Call)) (cache : Cache) :
  run h (fst (NewCache duration)) = Some cache →
  fst (Count cache) ≤ Z.of_nat (count_Sets h).
Proof.
  intros Hrun. pose proof (run_size h _ _ Hrun) as Hsz.
  simpl in Hsz. rewrite map_size_empty in Hsz.
  unfold Count. simpl. lia.
Qed.


(** ** How the calls of the clients compose *)

(** X11: a [Set] and a [Delete] of one key undo or absorb each other:
    a [Delete] after a [Set] leaves what the [Delete] alone would, which
    is the cache itself when the key had no entry; a [Set] after a
    [Delete] leaves what the [Set] alone would; and a [Get] after a
    [Delete] never finds the key, at any instant. *)
Theorem Set_and_Delete_of_one_key
    (now now' : Z) (key value : string) (cache : Cache) :
  Delete key (Set_ now key value cache) = Delete key cache
  ∧ (items cache !! key = None →
       Delete key (Set_ now key value cache) = cache)
  ∧ Set_ now key value (Delete key cache) = Set_ now key value cache
  ∧ Get now' key (Delete key cache) = ((""%string, false), Delete key cache).
Proof.
  unfold Delete, Set_, with_items. simpl. split_and!.
  - by rewrite delete_insert_eq.
  - intros Hk. rewrite delete_insert_eq, delete_id by done. apply cache_eta.
  - by rewrite insert_delete_eq.
  - apply Get_absent. simpl. by rewrite lookup_delete_eq.
Qed.

Lemma same_payloads_Count (c1 c2 : Cache) :
  same_payloads c1 c2 → fst (Count c1) = fst (Count c2).
Proof.
  intros (Hdata & _). unfold Count. simpl. f_equal.
  rewrite <- !size_dom. f_equal. apply set_eq. intros key.
  rewrite !elem_of_dom. specialize (Hdata key).
  destruct (items c1 !! key), (items c2 !! key); simpl in Hdata;
    try done; split; intros [? ?]; eauto; done.
Qed.

(** X12: calls on two different keys are independent.  With the first
    call reading [ta] from the clock and the second [tb], whichever call
    comes first, two [Set]s, or a [Set] and a [Delete], leave the same
    keys with the same payloads, the same [Count] and the same queue;
    each entry expires [ttl] after the instant its own [Set] read, so the
    two caches are equal when both instants are the same.  Two [Delete]s
    commute.  And what a [Get] returns, and the entry it leaves under its
    key, are as they would be without a [Set] or a [Delete] of the other
    key made before it. *)
Theorem calls_on_distinct_keys_commute
    (ta tb : Z) (k1 k2 v1 v2 : string) (cache : Cache) :
  k1 ≠ k2 →
  let set12 := Set_ tb k2 v2 (Set_ ta k1 v1 cache) in
  let set21 := Set_ tb k1 v1 (Set_ ta k2 v2 cache) in
  let set_del := Delete k2 (Set_ ta k1 v1 cache) in
  let del_set := Set_ tb k1 v1 (Delete k2 cache) in
  (same_payloads set12 set21
   ∧ fst (Count set12) = fst (Count set21)
   ∧ items set12 !! k1 = Some {| data := v1; expiresAt := ta + ttl cache |}
   ∧ items set21 !! k1 = Some {| data := v1; expiresAt := tb + ttl cache |}
   ∧ items set12 !! k2 = Some {| data := v2; expiresAt := tb + ttl cache |}
   ∧ items set21 !! k2 = Some {| data := v2; expiresAt := ta + ttl cache |}
   ∧ (ta = tb → set12 = set21))
  ∧ (same_payloads set_del del_set
     ∧ fst (Count set_del) = fst (Count del_set)
     ∧ items set_del !! k1 = Some {| data := v1; expiresAt := ta + ttl cache |}
     ∧ items del_set !! k1 = Some {| data := v1; expiresAt := tb + ttl cache |}
     ∧ (ta = tb → set_del = del_set))
  ∧ Delete k1 (Delete k2 cache) = Delete k2 (Delete k1 cache)
  ∧ (fst (Get tb k1 (Set_ ta k2 v2 cache)) = fst (Get tb k1 cache)
     ∧ items (snd (Get tb k1 (Set_ ta k2 v2 cache))) !! k1
         = items (snd (Get tb k1 cache)) !! k1)
  ∧ (fst (Get tb k1 (Delete k2 cache)) = fst (Get tb k1 cache)
     ∧ items (snd (Get tb k1 (Delete k2 cache))) !! k1
         = items (snd (Get tb k1 cache)) !! k1).
Proof.
  intros Hne set12 set21 set_del del_set.
  assert (Hsets : same_payloads set12 set21).
  { subst set12 set21. unfold same_payloads, Set_, touch. simpl.
    split_and!; try done. intros key.
    destruct (decide (key = k1)) as [E1|H1], (decide (key = k2)) as [E2|H2];
      by simplify_map_eq. }
  assert (Hsd : same_payloads set_del del_set).
  { subst set_del del_set. unfold same_payloads, Set_, Delete, touch. simpl.
    split_and!; try done. intros key.
    destruct (decide (key = k1)) as [E1|H1], (decide (key = k2)) as [E2|H2];
      by simplify_map_eq. }
  subst set12 set21 set_del del_set. split_and!.
  - done.
  - by apply same_payloads_Count.
  - unfold Set_, touch. simpl. by simplify_map_eq.
  - unfold Set_, touch. simpl. by simplify_map_eq.
  - unfold Set_, touch. simpl. by simplify_map_eq.
  - unfold Set_, touch. simpl. by simplify_map_eq.
  - intros ->. unfold Set_, with_items. simpl. f_equal.
    by apply insert_insert_ne.
  - done.
  - by apply same_payloads_Count.
  - unfold Set_, Delete, touch. simpl. by simplify_map_eq.
  - unfold Set_, Delete, touch. simpl. by simplify_map_eq.
  - intros ->. unfold Set_, Delete, with_items. simpl. f_equal.
    by rewrite delete_insert_ne.
  - unfold Delete, with_items. simpl. f_equal. apply delete_delete.
  - destruct (items cache !! k1) as [item|] eqn:Hk;
      [destruct (expired tb item) eqn:He|].
    + rewrite (Get_stale tb k1 cache item Hk He).
      by rewrite (Get_stale tb k1 (Set_ ta k2 v2 cache) item)
        by (try done; unfold Set_; simpl; by rewrite lookup_insert_ne).
    + rewrite (Get_found tb k1 cache item Hk He).
      by rewrite (Get_found tb k1 (Set_ ta k2 v2 cache) item)
        by (try done; unfold Set_; simpl; by rewrite lookup_insert_ne).
    + rewrite (Get_absent tb k1 cache Hk).
      by rewrite (Get_absent tb k1 (Set_ ta k2 v2 cache))
        by (unfold Set_; simpl; by rewrite lookup_insert_ne).
  - destruct (items cache !! k1) as [item|] eqn:Hk;
      [destruct (expired tb item) eqn:He|].
    + rewrite (Get_stale tb k1 cache item Hk He).
      rewrite (Get_stale tb k1 (Set_ ta k2 v2 cache) item)
        by (try done; unfold Set_; simpl; by rewrite lookup_insert_ne).
      unfold Set_. simpl. by rewrite lookup_insert_ne.
    + rewrite (Get_found tb k1 cache item Hk He).
      rewrite (Get_found tb k1 (Set_ ta k2 v2 cache) item)
        by (try done; unfold Set_; simpl; by rewrite lookup_insert_ne).
      simpl. by rewrite !lookup_insert_eq.
    + rewrite (Get_absent tb k1 cache Hk).
      rewrite (Get_absent tb k1 (Set_ ta k2 v2 cache))
        by (unfold Set_; simpl; by rewrite lookup_insert_ne).
      unfold Set_. simpl. by rewrite lookup_insert_ne.
  - destruct (items cache !! k1) as [item|] eqn:Hk;
      [destruct (expired tb item) eqn:He|].
    + rewrite (Get_stale tb k1 cache item Hk He).
      by rewrite (Get_stale tb k1 (Delete k2 cache) item)
        by (try done; unfold Delete; simpl; by rewrite lookup_delete_ne).
    + rewrite (Get_found tb k1 cache item Hk He).
      by rewrite (Get_found tb k1 (Delete k2 cache) item)
        by (try done; unfold Delete; simpl; by rewrite lookup_delete_ne).
    + rewrite (Get_absent tb k1 cache Hk).
      by rewrite (Get_absent tb k1 (Delete k2 cache))
        by (unfold Delete; simpl; by rewrite lookup_delete_ne).
  - destruct (items cache !! k1) as [item|] eqn:Hk;
      [destruct (expired tb item) eqn:He|].
    + rewrite (Get_stale tb k1 cache item Hk He).
      rewrite (Get_stale tb k1 (Delete k2 cache) item)
        by (try done; unfold Delete; simpl; by rewrite lookup_delete_ne).
      unfold Delete. simpl. by rewrite lookup_delete_ne.
    + rewrite (Get_found tb k1 cache item Hk He).
      rewrite (Get_found tb k1 (Delete k2 cache) item)
        by (try done; unfold Delete; simpl; by rewrite lookup_delete_ne).
      simpl. by rewrite !lookup_insert_eq.
    + rewrite (Get_absent tb k1 cache Hk).
      rewrite (Get_absent tb k1 (Delete k2 cache))
        by (unfold Delete; simpl; by rewrite lookup_delete_ne).
      unfold Delete. simpl. by rewrite lookup_delete_ne.
Qed.

(** X13: reads keep an entry alive: when the first [Get] of a key comes
    no later than the expiry of its entry and each next one no later than
    [ttl] after the one before, every one of them finds the payload, and
    the entry ends up expiring [ttl] after the last of them. *)
Theorem Gets_keep_entry_alive
    (key : string) (ts : list Z) (cache : Cache) (item : Item) :
  items cache !! key = Some item →
  kept_alive (expiresAt item) (ttl cache) ts →
  fst (Gets key ts cache) = replicate (length ts) (data item, true)
  ∧ items (snd (Gets key ts cache)) !! key =
      Some {| data := data item;
              expiresAt := match last ts with
                           | Some t => t + ttl cache
                           | None => expiresAt item
                           end |}
  ∧ ttl (snd (Gets key ts cache)) = ttl cache.
Proof.
  revert cache item. induction ts as [|t rest IH]; intros cache item Hk Halive.
  - simpl. split_and!; try done. rewrite Hk. by destruct item.
  - destruct Halive as [Ht Hrest]. simpl.
    assert (He : expired t item = false) by (by apply expired_false).
    rewrite (Get_found t key cache item Hk He). simpl.
    destruct (IH (with_items
                    (<[key := mkItem (data item) (t + ttl cache)]> (items cache))
                    cache)
                 (mkItem (data item) (t + ttl cache)))
      as (Hres & Hitem & Httl).
    { simpl. by rewrite lookup_insert_eq. }
    { done. }
    simpl in Hres, Hitem, Httl. rewrite Hres, Hitem, Httl.
    split_and!; try done.
    rewrite last_cons. by destruct (last rest).
Qed.

(** X14: a [ttl] of zero or less makes entries expire at once: after a
    [Set] at [t0], a [Get] of the key at any later instant does not find
    it, and one at [t0] itself finds it only when [ttl] is zero; the [Get]
    that misses leaves the entry in place. *)
Theorem nonpositive_ttl_expires_at_once
    (t0 t1 : Z) (key value : string) (cache : Cache) :
  ttl cache ≤ 0 → t0 ≤ t1 →
  Get t1 key (Set_ t0 key value cache) =
    if bool_decide (ttl cache = 0 ∧ t1 = t0)
    then ((value, true), Set_ t0 key value cache)
    else ((""%string, false), Set_ t0 key value cache).
Proof.
  intros Httl Hle. case_bool_decide as Hcase.
  - destruct Hcase as [H0 ->].
    rewrite (Get_found t0 key (Set_ t0 key value cache)
               {| data := value; expiresAt := t0 + ttl cache |}).
    + unfold Set_, with_items, touch. simpl. by rewrite insert_insert_eq.
    + unfold Set_. simpl. by rewrite lookup_insert_eq.
    + apply expired_false. simpl. lia.
  - apply (Get_stale t1 key (Set_ t0 key value cache)
             {| data := value; expiresAt := t0 + ttl cache |}).
    + unfold Set_. simpl. by rewrite lookup_insert_eq.
    + apply expired_spec. simpl. lia.
Qed.

(** X15: a call of a client about one key, a [Count] and a receive by a
    consumer never change the entry of another key: it stays absent, or
    stays there with the same payload and the same expiry. *)
Theorem calls_leave_other_keys
    (now : Z) (call : Call) (cache cache' : Cache) (key : string) :
  exec now call cache = Some cache' →
  (∀ order, call ≠ Tick order) → call_key call ≠ Some key →
  items cache' !! key = items cache !! key.
Proof.
  intros Hex Hsweep Hkey.
  destruct call as [k v|k| k | |order|]; simpl in Hex, Hkey.
  - injection Hex as <-. simpl. rewrite lookup_insert_ne; [done|congruence].
  - injection Hex as <-.
    destruct (Get_cases now k cache) as [[_ ->]|(it & _ & _ & ->)]; [done|].
    simpl. rewrite lookup_insert_ne; [done|congruence].
  - injection Hex as <-. simpl. rewrite lookup_delete_ne; [done|congruence].
  - by injection Hex as <-.
  - by destruct (Hsweep order).
  - destruct (chan_recv (FinishedItems cache)); [|done]. by injection Hex as <-.
Qed.

(** ** The further properties at concrete caches *)

Lemma range_order_b : range_order (items cache_b_swept) ["b"%string].
Proof. unfold range_order. vm_compute. reflexivity. Defined.

Lemma sweep_cache_ab : cleanup 7 order_ab cache_ab = Some cache_b_swept.
Proof. reflexivity. Defined.

Lemma queue_ok_cache_ab : queue_ok cache_ab.
Proof. unfold queue_ok, len. simpl. lia. Defined.

Lemma sweep_without_expired_entry_witness :
  (∀ key item, items cache_ab !! key = Some item → ¬ 3 > expiresAt item)
  ∧ cleanup 3 ["b"; "a"; "z"; "a"]%string cache_ab = Some cache_ab.
Proof.
  assert (Hfresh : ∀ key item,
             items cache_ab !! key = Some item → ¬ 3 > expiresAt item).
  { intros key item. unfold cache_ab, Set_. simpl.
    destruct (decide (key = "b"%string)) as [->|Hb].
    - rewrite lookup_insert_eq. intros [= <-]. simpl. lia.
    - rewrite lookup_insert_ne by done.
      destruct (decide (key = "a"%string)) as [->|Ha].
      + rewrite lookup_insert_eq. intros [= <-]. simpl. lia.
      + rewrite lookup_insert_ne by done. by rewrite lookup_empty. }
  split; [exact Hfresh|].
  exact (sweep_without_expired_entry 3 _ cache_ab Hfresh).
Defined.

Lemma sweep_twice_is_sweep_once_witness :
  cleanup 7 order_ab cache_ab = Some cache_b_swept
  ∧ cleanup 6 ["b"; "a"]%string cache_b_swept = Some cache_b_swept.
Proof.
  split; [exact sweep_cache_ab|].
  apply (sweep_twice_is_sweep_once 7 6 order_ab _ cache_ab cache_b_swept
           queue_ok_cache_ab (range_order_keys _) sweep_cache_ab). lia.
Defined.

Lemma sweep_transparent_to_Get_witness :
  fst (Get 8 "a" cache_b_swept) = fst (Get 8 "a" cache_ab)
  ∧ fst (Get 8 "b" cache_b_swept) = fst (Get 8 "b" cache_ab).
Proof.
  split.
  - apply (sweep_transparent_to_Get 7 8 order_ab cache_ab cache_b_swept "a"
             queue_ok_cache_ab (range_order_keys _) sweep_cache_ab). lia.
  - apply (sweep_transparent_to_Get 7 8 order_ab cache_ab cache_b_swept "b"
             queue_ok_cache_ab (range_order_keys _) sweep_cache_ab). lia.
Defined.

Lemma two_sweeps_compose_witness :
  cleanup 10 ["b"%string] cache_b_swept = Some cache_swept_twice
  ∧ items cache_swept_twice = unexpired 10 (items cache_ab)
  ∧ fst (Count cache_swept_twice) =
      fst (Count cache_ab) - Z.of_nat (size (stale 10 (items cache_ab))).
Proof.
  assert (Hrun2 : cleanup 10 ["b"%string] cache_b_swept
                  = Some cache_swept_twice) by reflexivity.
  split; [exact Hrun2|].
  assert (Hle : 7 ≤ 10) by lia.
  destruct (two_sweeps_compose 7 10 order_ab ["b"%string] cache_ab
              cache_b_swept cache_swept_twice queue_ok_cache_ab Hle
              (range_order_keys _) sweep_cache_ab range_order_b Hrun2)
    as (Hitems & _ & Hcount).
  split; [exact Hitems|exact Hcount].
Defined.

Lemma sweep_within_capacity_loses_nothing_witness :
  len (FinishedItems cache_ab) + Z.of_nat (size (stale 7 (items cache_ab)))
    ≤ Length cache_ab
  ∧ ∃ cache', cleanup 7 order_ab cache_ab = Some cache'
      ∧ buf (FinishedItems cache') =
          buf (FinishedItems cache_ab) ++ reclaimed 7 order_ab (items cache_ab).
Proof.
  assert (Hfit : len (FinishedItems cache_ab)
                 + Z.of_nat (size (stale 7 (items cache_ab)))
                 ≤ Length cache_ab) by (by vm_compute).
  split; [exact Hfit|].
  destruct (sweep_within_capacity_loses_nothing 7 order_ab cache_ab
              queue_ok_cache_ab (range_order_keys _) Hfit)
    as (cache' & Hrun & Hbuf & _).
  exists cache'. split; [exact Hrun|exact Hbuf].
Defined.

Lemma reachable_cache_invariant_witness :
  run history_full (fst (NewCache 1)) = Some cache_full
  ∧ ttl cache_full = 1 ∧ len (FinishedItems cache_full) ≤ 10
  ∧ (∃ cache', cleanup_racing 10 [("z"%string, 9%nat)] cache_full
               = Returns cache')
  ∧ ∃ cache', cleanup 10 ["z"; "z"]%string cache_full = Some cache'.
Proof.
  destruct (reachable_cache_invariant 1 history_full cache_full
              run_history_full)
    as (Httl & _ & _ & Hlen & Hracing & Hquiet).
  split; [exact run_history_full|].
  split; [exact Httl|]. split; [exact Hlen|]. split.
  - apply Hracing. repeat constructor.
  - destruct (Hquiet 10 ["z"; "z"]%string) as (cache' & Hsweep & _).
    by exists cache'.
Defined.

Lemma only_Set_stores_a_payload_witness :
  exec 3 (CallGet "a") cache_ab = Some (snd (Get 3 "a" cache_ab))
  ∧ ∃ item, items cache_ab !! "a"%string = Some item ∧ "1"%string = data item.
Proof.
  assert (Hex : exec 3 (CallGet "a") cache_ab = Some (snd (Get 3 "a" cache_ab)))
    by reflexivity.
  split; [exact Hex|].
  apply (only_Set_stores_a_payload 3 (CallGet "a") cache_ab _ "a"%string
           {| data := "1"; expiresAt := 8 |} Hex); [done|reflexivity].
Defined.

Lemma Count_grows_only_by_Set_witness :
  exec 1 (CallSet "z" "8") cache_ab = Some (Set_ 1 "z" "8" cache_ab)
  ∧ fst (Count (Set_ 1 "z" "8" cache_ab)) ≤ fst (Count cache_ab) + 1.
Proof.
  assert (Hex : exec 1 (CallSet "z" "8") cache_ab
                = Some (Set_ 1 "z" "8" cache_ab)) by reflexivity.
  split; [exact Hex|].
  apply (Count_grows_only_by_Set 1 (CallSet "z" "8") cache_ab _ Hex).
Defined.

Lemma Count_bounded_by_Sets_witness :
  run history_ab (fst (NewCache 5)) = Some cache_after_ab
  ∧ fst (Count cache_after_ab) ≤ Z.of_nat (count_Sets history_ab).
Proof.
  assert (Hrun : run history_ab (fst (NewCache 5)) = Some cache_after_ab)
    by reflexivity.
  split; [exact Hrun|].
  exact (Count_bounded_by_Sets 5 history_ab cache_after_ab Hrun).
Defined.


Lemma Set_and_Delete_of_one_key_witness :
  Delete "z" (Set_ 3 "z" "9" cache_ab) = cache_ab
  ∧ Get 4 "a" (Delete "a" cache_ab) = ((""%string, false), Delete "a" cache_ab).
Proof.
  destruct (Set_and_Delete_of_one_key 3 4 "z" "9" cache_ab)
    as (_ & Hundo & _ & _).
  destruct (Set_and_Delete_of_one_key 3 4 "a" "9" cache_ab)
    as (_ & _ & _ & Hmiss).
  split; [apply Hundo; reflexivity|exact Hmiss].
Defined.

Lemma calls_on_distinct_keys_commute_witness :
  same_payloads (Set_ 2 "b" "9" (Set_ 1 "a" "8" cache_ab))
    (Set_ 2 "a" "8" (Set_ 1 "b" "9" cache_ab))
  ∧ items (Set_ 2 "b" "9" (Set_ 1 "a" "8" cache_ab)) !! "a"%string
      = Some {| data := "8"; expiresAt := 6 |}
  ∧ items (Set_ 2 "a" "8" (Set_ 1 "b" "9" cache_ab)) !! "a"%string
      = Some {| data := "8"; expiresAt := 7 |}
  ∧ fst (Get 3 "a" (Delete "b" cache_ab)) = fst (Get 3 "a" cache_ab).
Proof.
  assert (Hne : "a"%string ≠ "b"%string) by done.
  destruct (calls_on_distinct_keys_commute 1 2 "a" "b" "8" "9" cache_ab Hne)
    as ((Hsame & _ & Ha12 & Ha21 & _) & _ & _ & _ & _).
  destruct (calls_on_distinct_keys_commute 1 3 "a" "b" "8" "9" cache_ab Hne)
    as (_ & _ & _ & _ & (Hget & _)).
  split; [exact Hsame|]. split; [exact Ha12|]. split; [exact Ha21|exact Hget].
Defined.

Lemma Gets_keep_entry_alive_witness :
  kept_alive 9 5 [9; 14; 19]
  ∧ fst (Gets "b" [9; 14; 19] cache_ab) = replicate 3 ("2"%string, true)
  ∧ items (snd (Gets "b" [9; 14; 19] cache_ab)) !! "b"%string
      = Some {| data := "2"; expiresAt := 24 |}.
Proof.
  assert (Halive : kept_alive 9 5 [9; 14; 19]) by (simpl; lia).
  split; [exact Halive|].
  destruct (Gets_keep_entry_alive "b" [9; 14; 19] cache_ab
              {| data := "2"; expiresAt := 9 |} eq_refl Halive)
    as (Hres & Hitem & _).
  split; [exact Hres|exact Hitem].
Defined.

Lemma nonpositive_ttl_expires_at_once_witness :
  Get 1 "a" (Set_ 1 "a" "1" (fst (NewCache 0)))
    = (("1"%string, true), Set_ 1 "a" "1" (fst (NewCache 0)))
  ∧ Get 2 "a" (Set_ 1 "a" "1" (fst (NewCache 0)))
    = ((""%string, false), Set_ 1 "a" "1" (fst (NewCache 0)))
  ∧ Get 1 "a" (Set_ 1 "a" "1" (fst (NewCache (-3))))
    = ((""%string, false), Set_ 1 "a" "1" (fst (NewCache (-3)))).
Proof.
  split_and!.
  - apply (nonpositive_ttl_expires_at_once 1 1 "a" "1" (fst (NewCache 0)));
      simpl; lia.
  - apply (nonpositive_ttl_expires_at_once 1 2 "a" "1" (fst (NewCache 0)));
      simpl; lia.
  - apply (nonpositive_ttl_expires_at_once 1 1 "a" "1" (fst (NewCache (-3))));
      simpl; lia.
Defined.

Lemma calls_leave_other_keys_witness :
  exec 3 (CallDelete "a") cache_ab = Some (Delete "a" cache_ab)
  ∧ items (Delete "a" cache_ab) !! "b"%string = items cache_ab !! "b"%string.
Proof.
  assert (Hex : exec 3 (CallDelete "a") cache_ab = Some (Delete "a" cache_ab))
    by reflexivity.
  split; [exact Hex|].
  apply (calls_leave_other_keys 3 (CallDelete "a") cache_ab _ "b"%string Hex);
    done.
Defined.

Lemma publish_parks_on_drained_queue_witness :
  run history_full (fst (NewCache 1)) = Some cache_full
  ∧ queue_ok cache_full
  ∧ len (FinishedItems cache_full) = Length cache_full
  ∧ publish_racing 10 "z" cache_full
      = Parks (with_FinishedItems {| buf := []; cap := 10 |} cache_full)
  ∧ cleanup_racing 10 [("z"%string, 10%nat)] cache_full = Parks cache_parked
  ∧ ∃ cache', cleanup 10 ["z"%string] cache_full = Some cache'
              ∧ last (buf (FinishedItems cache')) = Some "z"%string.
Proof.
  assert (Hok : queue_ok cache_full) by (unfold queue_ok, len; simpl; lia).
  assert (Hfull : len (FinishedItems cache_full) = Length cache_full)
    by reflexivity.
  assert (Hz : items cache_full !! "z"%string
               = Some {| data := "z"; expiresAt := 6 |}) by reflexivity.
  assert (He : 10 > expiresAt {| data := "z"; expiresAt := 6 |})
    by (simpl; lia).
  destruct (publish_parks_on_drained_queue 10 "z" "z" _ cache_full
              Hok Hfull Hz He) as (Hparks & _ & Hsweep & Hquiet).
  split; [exact run_history_full|]. split; [exact Hok|].
  split; [exact Hfull|]. split; [exact Hparks|].
  split; [exact Hsweep|exact Hquiet].
Defined.
